(** * The bootstrap of the VM (Native/substrate/maxine.c)

    A shallow embedding of the main program of the VM: it resolves the path
    of the boot image next to the executable, has the image loaded, lays out
    the primordial thread locals and the auxiliary space, calls the VM entry
    point as a C function and returns its exit code.

    The C code is sequential and talks to the operating system all the time
    (readlink, realpath, getenv, alloca, malloc, close, dladdr, exit).  The
    embedding threads an explicit state through a small monad with three
    outcomes (the function returned, the process exited, an access left its
    object), and takes the answers of the operating system and of the
    modules that are not part of this file from a [World]. *)

From Stdlib Require Import ZArith List String Ascii Bool Lia.
Import ListNotations.
Open Scope Z_scope.

(** ** Build configuration *)

(** The platforms selected by the [os_] macros. *)
Inductive OS : Type := DARWIN | GUESTVMXEN | LINUX | SOLARIS.

(** What the preprocessor fixes: the platform, [sizeof(Address)],
    [MAX_PATH_LENGTH] (maxine.h), [ENABLE_CARD_TABLE_VERIFICATION] (0 in the
    file as it stands, the other branch of the [#if] is kept) and
    [log_LOADER] (log.h). *)
Record Config : Type := {
  os : OS;
  sizeof_Address : Z;
  MAX_PATH_LENGTH : nat;
  ENABLE_CARD_TABLE_VERIFICATION : bool;
  log_LOADER : bool
}.

Definition IMAGE_FILE_NAME : string := "maxine.vm".

Definition REFERENCE_BUFFER_SIZE (c : Config) : Z :=
  if ENABLE_CARD_TABLE_VERIFICATION c then 1024 * 1024 * 1024 else 0.

(** ** Machine words *)

Definition address_bits (c : Config) : Z := 8 * sizeof_Address c.

(** Conversion to [Address] / [Size]: an unsigned word, wrap-around
    written out. *)
Definition to_Address (c : Config) (z : Z) : Z := z mod 2 ^ address_bits c.

(** Conversion to [jint] / [int]: a signed 32-bit integer. *)
Definition to_jint (z : Z) : Z := (z + 2 ^ 31) mod 2 ^ 32 - 2 ^ 31.

(** Modelled from the spec: the macro [wordAlign] comes from word.h, which
    is not part of this file; the spec has it "align the base address up to
    the next machine-word boundary". *)
Definition wordAlign (c : Config) (p : Z) : Z :=
  to_Address c (sizeof_Address c * ((p + sizeof_Address c - 1) / sizeof_Address c)).

(** [image_heap() + (Address) image_header()->vmRunMethodOffset]. *)
Definition vmRunMethod_address (c : Config) (heap offset : Z) : Z :=
  to_Address c (heap + to_Address c offset).

(** ** Data *)

(** The fields of the image header that this file reads. *)
Record image_Header : Type := {
  vmRunMethodOffset : Z;
  vmThreadLocalsSize : Z;
  auxiliarySpaceSize : Z
}.

(** What [dladdr] fills in; a NULL [dli_sname] is [None]. *)
Record Dl_info : Type := {
  dli_fname : string;
  dli_fbase : Z;
  dli_sname : option string;
  dli_saddr : Z
}.

(** The two bridge functions handed to the VM by address. *)
Inductive Bridge : Type := openDynamicLibrary | loadSymbol.

(** The arguments of [VMRunMethod], in the order of the typedef. *)
Record VMRunArgs : Type := {
  arg_primordialVmThreadLocals : Z;
  arg_bootHeapRegionStart : Z;
  arg_auxiliarySpace : Z;
  arg_openDynamicLibrary : Bridge;
  arg_dlsym : Bridge;
  arg_argc : Z;
  arg_argv : Z
}.

(** Byte-addressed memory. *)
Definition Mem : Type := Z -> Z.

(** [image_load] either returns a file descriptor or ends the process. *)
Inductive LoadResult : Type :=
| Loaded (fd : Z)
| LoadExit (code : Z).

(** What is written by [log_println], [log_exit] and [fprintf(stderr, ...)],
    one constructor per format string, with the arguments of the format. *)
Inductive Message : Type :=
| MsgFlatNamespace
| MsgCouldNotRead (name : string)
| MsgLdLibraryPath (value : option string)
| MsgArguments (argc argv : Z)
| MsgArg (i : Z)
| MsgPrimordialAllocated (p : Z)
| MsgAuxFailed (size : Z)
| MsgAuxAllocated (size p : Z)
| MsgEntering (args : VMRunArgs)
| MsgStartExited (code : Z)
| MsgCloseWarning
| MsgExitCode (code : Z)
| MsgInModule (fname : string) (fbase : Z)
| MsgInSymbol (fname : string) (fbase : Z) (sname : string) (saddr offset : Z)
| MsgTrap (address : Z).

(** What the program does to the outside, newest event first. *)
Inductive Event : Type :=
| Log (m : Message)
| ImageLoad (path : list ascii) (fd : Z)
| MessengerInitialize
| ThreadsInitialize
| Alloca (size p : Z)
| Malloc (size p : Z)
| Call (method : Z) (args : VMRunArgs) (m : Mem)
| Close (fd error : Z).

(** The answers of the operating system and of the modules outside this
    file. *)
Record World : Type := {
  build : Config;
  getenv : string -> option string;
  realpath : string -> option string;
  readlink : string -> option string;
  uninitialized : nat -> ascii;
  image_load : list ascii -> LoadResult;
  image_heap : Z;
  image_header : image_Header;
  alloca : Z -> Z;
  malloc : Z -> Z;
  vm_run : Z -> VMRunArgs -> Mem -> Z;
  close : Z -> Z;
  dladdr : Z -> option Dl_info;
  memory0 : Mem
}.

(** ** The monad *)

Record State : Type := {
  mem : Mem;
  _executablePath : string;
  trace : list Event
}.

Inductive Outcome (A : Type) : Type :=
| Done (a : A) (s : State)
| Exited (code : Z) (s : State)
| Fault (s : State).
Arguments Done {A} a s.
Arguments Exited {A} code s.
Arguments Fault {A} s.

Definition M (A : Type) : Type := State -> Outcome A.

Definition ret {A : Type} (a : A) : M A := fun s => Done a s.

Definition bind {A B : Type} (m : M A) (k : A -> M B) : M B :=
  fun s =>
    match m s with
    | Done a s' => k a s'
    | Exited code s' => Exited code s'
    | Fault s' => Fault s'
    end.

Notation "x <- m ;; k" := (bind m (fun x => k))
  (at level 61, m at next level, right associativity).
Notation "m ;;; k" := (bind m (fun _ => k))
  (at level 61, right associativity).

Definition final_state {A : Type} (o : Outcome A) : State :=
  match o with
  | Done _ s => s
  | Exited _ s => s
  | Fault s => s
  end.

Definition push (e : Event) (s : State) : State :=
  {| mem := mem s; _executablePath := _executablePath s; trace := e :: trace s |}.

Definition emit (e : Event) : M unit := fun s => Done tt (push e s).

Definition exit {A : Type} (code : Z) : M A := fun s => Exited code s.

Definition fault {A : Type} : M A := fun s => Fault s.

(** An access that may leave its object. *)
Definition access {A : Type} (o : option A) : M A :=
  match o with
  | Some a => ret a
  | None => fault
  end.

Definition when (b : bool) (m : M unit) : M unit := if b then m else ret tt.

Definition log_println (m : Message) : M unit := emit (Log m).

(** Modelled from the spec: [log_exit] comes from log.c, which is not part
    of this file; it writes the message and ends the process with the given
    status code. *)
Definition log_exit {A : Type} (code : Z) (m : Message) : M A :=
  emit (Log m) ;;; exit code.

Definition memset_mem (m : Mem) (p c n : Z) : Mem :=
  fun a => if (p <=? a) && (a <? p + n) then c else m a.

Definition memset (p c n : Z) : M unit :=
  fun s => Done tt {| mem := memset_mem (mem s) p c n;
                      _executablePath := _executablePath s;
                      trace := trace s |}.

(** ** Character buffers *)

Definition NUL : ascii := "000"%char.

Definition buf_get (b : list ascii) (i : nat) : option ascii := nth_error b i.

Fixpoint buf_set (b : list ascii) (i : nat) (c : ascii) : option (list ascii) :=
  match b, i with
  | [], _ => None
  | _ :: t, O => Some (c :: t)
  | x :: t, S j => option_map (cons x) (buf_set t j c)
  end.

(** Stores [cs] at [b[off]], [b[off+1]], ... *)
Fixpoint store_chars (b : list ascii) (off : nat) (cs : list ascii)
  : option (list ascii) :=
  match cs with
  | [] => Some b
  | c :: r =>
      match buf_set b off c with
      | Some b' => store_chars b' (S off) r
      | None => None
      end
  end.

(** [strlen]: the index of the first NUL; none in the buffer is a read
    past its end. *)
Fixpoint strlen (b : list ascii) : option nat :=
  match b with
  | [] => None
  | c :: t => if Ascii.eqb c NUL then Some O else option_map S (strlen t)
  end.

(** [strcpy(b + off, s)]: the characters of [s] and the terminating NUL. *)
Definition strcpy (b : list ascii) (off : nat) (s : string)
  : option (list ascii) :=
  store_chars b off (list_ascii_of_string s ++ [NUL]).

(** The C string held by a buffer. *)
Fixpoint c_string (b : list ascii) : option string :=
  match b with
  | [] => None
  | c :: t =>
      if Ascii.eqb c NUL then Some EmptyString
      else option_map (String c) (c_string t)
  end.

(** The loop of [getExecutablePath], with [p = result + i]: it reads the
    character at [p]; on a slash it stores NUL at [p + 1] and breaks;
    otherwise it goes on with [p - 1] as long as [p >= result]. *)
Fixpoint chop (result : list ascii) (i : nat) : option (list ascii) :=
  match buf_get result i with
  | None => None
  | Some c =>
      if Ascii.eqb c "/"%char then buf_set result (S i) NUL
      else match i with
           | O => Some result
           | S j => chop result j
           end
  end.

Section Program.

Variable w : World.

Let cfg : Config := build w.

(** ** Path of the image *)

(** [readlink(linkName, result, MAX_PATH_LENGTH)] followed by the test of
    its result and the loop; readlink stores at most [MAX_PATH_LENGTH]
    characters and no NUL. *)
Definition read_link (linkName : string) (result : list ascii)
  : M (list ascii) :=
  match readlink w linkName with
  | None => log_exit 1 (MsgCouldNotRead linkName)
  | Some target =>
      let written := firstn (MAX_PATH_LENGTH cfg) (list_ascii_of_string target) in
      result <- access (store_chars result 0 written) ;;
      let numberOfChars := List.length written in
      access (chop result numberOfChars)
  end.

(** On Darwin [realpath] stores the resolved path and its NUL, and
    [numberOfChars] is its [strlen]; on GuestVM/Xen the result is the empty
    string and there is no loop. *)
Definition getExecutablePath (result : list ascii) : M (list ascii) :=
  match os cfg with
  | DARWIN =>
      fun s =>
        match realpath w (_executablePath s) with
        | None =>
            (emit (Log (MsgCouldNotRead (_executablePath s))) ;;; exit 1) s
        | Some resolved =>
            (result <- access (strcpy result 0 resolved) ;;
             numberOfChars <- access (strlen result) ;;
             access (chop result numberOfChars)) s
        end
  | GUESTVMXEN => access (buf_set result 0 NUL)
  | LINUX => read_link "/proc/self/exe" result
  | SOLARIS => read_link "/proc/self/path/a.out" result
  end.

Definition getImageFilePath (result : list ascii) : M (list ascii) :=
  match os cfg with
  | GUESTVMXEN => ret result
  | _ =>
      result <- getExecutablePath result ;;
      len <- access (strlen result) ;;
      access (strcpy result len IMAGE_FILE_NAME)
  end.

(** [char imageFilePath[MAX_PATH_LENGTH]]: a local array, not initialised. *)
Definition imageFilePath0 : list ascii :=
  map (uninitialized w) (seq 0 (MAX_PATH_LENGTH cfg)).

(** Modelled from the spec: [image_load] comes from image.c, which is not
    part of this file; it returns the file descriptor of the image, or ends
    the whole process if the file cannot be read or is rejected. *)
Definition call_image_load (path : list ascii) : M Z :=
  match image_load w path with
  | Loaded fd => emit (ImageLoad path fd) ;;; ret fd
  | LoadExit code => exit code
  end.

Definition loadImage : M Z :=
  imageFilePath <- getImageFilePath imageFilePath0 ;;
  call_image_load imageFilePath.

(** ** The bootstrap routine *)

Definition set_executablePath (path : string) : M unit :=
  fun s => Done tt {| mem := mem s; _executablePath := path; trace := trace s |}.

Definition messenger_initialize : M unit := emit MessengerInitialize.

Definition threads_initialize : M unit := emit ThreadsInitialize.

Definition call_alloca (size : Z) : M Z :=
  let p := alloca w size in emit (Alloca size p) ;;; ret p.

Definition call_malloc (size : Z) : M Z :=
  let p := malloc w size in emit (Malloc size p) ;;; ret p.

Definition call_close (fd : Z) : M Z :=
  let error := close w fd in emit (Close fd error) ;;; ret error.

(** The call through the function pointer: the VM starts in the memory as
    it is now and hands back a [jint].  The entry function is taken to
    return: a VM that ends the process from inside the call (through
    [native_exit] or [native_trap_exit]) is not an outcome of [maxine]
    here. *)
Definition call_method (method : Z) (args : VMRunArgs) : M Z :=
  fun s => Done (to_jint (vm_run w method args (mem s)))
                (push (Call method args (mem s)) s).

(** The loop over the arguments under [log_LOADER], [n] rounds left.  The
    line of round [i] stands for the format with [argv[i]]; the reads of
    [argv[i]] themselves are not modelled, [argv] is taken to hold [argc]
    readable entries, as [main] passes them. *)
Fixpoint log_arguments (n : nat) (i : Z) : M unit :=
  match n with
  | O => ret tt
  | S k => log_println (MsgArg i) ;;; log_arguments k (i + 1)
  end.

Definition is_DARWIN : bool :=
  match os cfg with DARWIN => true | _ => false end.

Definition is_GUESTVMXEN : bool :=
  match os cfg with GUESTVMXEN => true | _ => false end.

(** The [os_DARWIN] block at the head of [maxine]. *)
Definition check_environment (executablePath : string) : M unit :=
  when is_DARWIN
    (set_executablePath executablePath ;;;
     match getenv w "DYLD_FORCE_FLAT_NAMESPACE" with
     | None => log_exit 11 MsgFlatNamespace
     | Some _ => ret tt
     end).

(** The [log_LOADER] block that follows it. *)
Definition log_startup (argc argv : Z) : M unit :=
  when (log_LOADER cfg)
    (when (negb is_GUESTVMXEN)
       (log_println (MsgLdLibraryPath (getenv w "LD_LIBRARY_PATH"))) ;;;
     log_println (MsgArguments argc argv) ;;;
     log_arguments (Z.to_nat argc) 0).

(** "Allocate the primordial VM thread locals", "Align ... to Word
    boundary", "Initialize all ... to 0/null". *)
Definition allocate_primordial : M Z :=
  p <- call_alloca
         (to_Address cfg (vmThreadLocalsSize (image_header w) + sizeof_Address cfg)) ;;
  let primordialVmThreadLocals := wordAlign cfg p in
  memset primordialVmThreadLocals 0
         (to_Address cfg (vmThreadLocalsSize (image_header w))) ;;;
  when (log_LOADER cfg)
    (log_println (MsgPrimordialAllocated primordialVmThreadLocals)) ;;;
  ret primordialVmThreadLocals.

(** [image_header()->auxiliarySpaceSize + REFERENCE_BUFFER_SIZE] as a
    [Size]. *)
Definition auxiliary_size : Z :=
  to_Address cfg (auxiliarySpaceSize (image_header w) + REFERENCE_BUFFER_SIZE cfg).

(** The auxiliary space: from [Address auxiliarySpace = 0] to the end of the
    [if (auxiliarySpaceSize)]. *)
Definition allocate_auxiliary : M Z :=
  if auxiliary_size =? 0 then ret 0
  else
    auxiliarySpace <- call_malloc auxiliary_size ;;
    when (auxiliarySpace =? 0) (log_exit 1 (MsgAuxFailed auxiliary_size)) ;;;
    when (log_LOADER cfg)
      (log_println
         (MsgAuxAllocated
            (to_Address cfg (auxiliarySpaceSize (image_header w)))
            auxiliarySpace)) ;;;
    memset auxiliarySpace 1 auxiliary_size ;;;
    ret auxiliarySpace.

(** The [if (fd > 0)] after the call. *)
Definition close_image (fd : Z) : M unit :=
  when (fd >? 0)
    (error <- call_close fd ;;
     when (negb (error =? 0)) (log_println MsgCloseWarning)).

Definition maxine (argc argv : Z) (executablePath : string) : M Z :=
  check_environment executablePath ;;;
  log_startup argc argv ;;;
  fd <- loadImage ;;
  messenger_initialize ;;;
  threads_initialize ;;;
  let method :=
    vmRunMethod_address cfg (image_heap w) (vmRunMethodOffset (image_header w)) in
  primordialVmThreadLocals <- allocate_primordial ;;
  auxiliarySpace <- allocate_auxiliary ;;
  let args :=
    {| arg_primordialVmThreadLocals := primordialVmThreadLocals;
       arg_bootHeapRegionStart := image_heap w;
       arg_auxiliarySpace := auxiliarySpace;
       arg_openDynamicLibrary := openDynamicLibrary;
       arg_dlsym := loadSymbol;
       arg_argc := argc;
       arg_argv := argv |} in
  when (log_LOADER cfg) (log_println (MsgEntering args)) ;;;
  exitCode <- call_method method args ;;
  when (log_LOADER cfg) (log_println (MsgStartExited exitCode)) ;;;
  close_image fd ;;;
  when (log_LOADER cfg) (log_println (MsgExitCode exitCode)) ;;;
  ret exitCode.

(** ** Native support *)

Definition native_exit {A : Type} (code : Z) : M A := exit code.

Definition native_trap_exit (code address : Z) : M unit :=
  match dladdr w address with
  | Some info =>
      match dli_sname info with
      | None => log_println (MsgInModule (dli_fname info) (dli_fbase info))
      | Some sname =>
          log_println
            (MsgInSymbol (dli_fname info) (dli_fbase info) sname (dli_saddr info)
               (to_jint (to_Address cfg (address - dli_saddr info))))
      end
  | None => ret tt
  end ;;;
  log_exit code (MsgTrap address).

(** The state in which the process enters [maxine]. *)
Definition initial : State :=
  {| mem := memory0 w; _executablePath := EmptyString; trace := [] |}.

Definition run (argc argv : Z) (executablePath : string) : Outcome Z :=
  maxine argc argv executablePath initial.

End Program.

(** ** Reading a trace *)

Fixpoint calls (tr : list Event) : list (Z * VMRunArgs * Mem) :=
  match tr with
  | [] => []
  | Call method args m :: t => (method, args, m) :: calls t
  | _ :: t => calls t
  end.

Fixpoint allocas (tr : list Event) : list (Z * Z) :=
  match tr with
  | [] => []
  | Alloca size p :: t => (size, p) :: allocas t
  | _ :: t => allocas t
  end.

Fixpoint mallocs (tr : list Event) : list (Z * Z) :=
  match tr with
  | [] => []
  | Malloc size p :: t => (size, p) :: mallocs t
  | _ :: t => mallocs t
  end.

Fixpoint closes (tr : list Event) : list (Z * Z) :=
  match tr with
  | [] => []
  | Close fd error :: t => (fd, error) :: closes t
  | _ :: t => closes t
  end.

Fixpoint image_loads (tr : list Event) : list (list ascii * Z) :=
  match tr with
  | [] => []
  | ImageLoad path fd :: t => (path, fd) :: image_loads t
  | _ :: t => image_loads t
  end.

(** The events newer than the call of the entry point, and those older
    than it. *)
Fixpoint since_call (tr : list Event) : list Event :=
  match tr with
  | [] => []
  | Call _ _ _ :: _ => []
  | e :: t => e :: since_call t
  end.

Fixpoint until_call (tr : list Event) : list Event :=
  match tr with
  | [] => []
  | Call _ _ _ :: t => t
  | _ :: t => until_call t
  end.

Definition is_close_warning (e : Event) : bool :=
  match e with
  | Log MsgCloseWarning => true
  | _ => false
  end.

(** Whether "WARNING: could not close image file" was written. *)
Definition warned (tr : list Event) : bool := existsb is_close_warning tr.

(** Events that neither load, allocate, call nor close, and are not the
    warning. *)
Definition quiet (e : Event) : bool :=
  match e with
  | Log m => negb (is_close_warning e)
  | MessengerInitialize | ThreadsInitialize => true
  | _ => false
  end.

(** [s'] comes from [s] by quiet events, with the memory untouched. *)
Definition quiet_step (s s' : State) : Prop :=
  mem s' = mem s /\
  exists l, trace s' = l ++ trace s /\ forallb quiet l = true.

(** ** Headers and allocators *)

(** The sizes of the header are not negative and the sums that [maxine]
    forms with them fit a [Size]. *)
Definition valid_header (c : Config) (h : image_Header) : bool :=
  (0 <=? vmThreadLocalsSize h)
  && (vmThreadLocalsSize h + sizeof_Address c <? 2 ^ address_bits c)
  && (0 <=? auxiliarySpaceSize h)
  && (auxiliarySpaceSize h + REFERENCE_BUFFER_SIZE c <? 2 ^ address_bits c).

(** The block that [alloca] hands out for the thread locals. *)
Definition primordial_block_size (w : World) : Z :=
  to_Address (build w)
    (vmThreadLocalsSize (image_header w) + sizeof_Address (build w)).

Definition primordial_block (w : World) : Z :=
  alloca w (primordial_block_size w).

(** What C promises of [alloca] and [malloc]: the stack block lies in the
    address space, and a heap block that is not NULL does not overlap it. *)
Definition allocator_ok (w : World) : bool :=
  let a := primordial_block w in
  let n := primordial_block_size w in
  let p := malloc w (auxiliary_size w) in
  (0 <=? a) && (a + n <=? 2 ^ address_bits (build w))
  && ((p =? 0) || (p + auxiliary_size w <=? a) || (a + n <=? p)).

(** What the code hands to the entry point, read off the steps of [maxine]:
    the aligned thread locals, the auxiliary space, the address called and
    the memory after the two fills. *)
Definition primordial_address (w : World) : Z :=
  wordAlign (build w) (primordial_block w).

Definition auxiliary_address (w : World) : Z :=
  if auxiliary_size w =? 0 then 0 else malloc w (auxiliary_size w).

Definition entry_memory (w : World) : Mem :=
  let zeroed :=
    memset_mem (memory0 w) (primordial_address w) 0
      (to_Address (build w) (vmThreadLocalsSize (image_header w))) in
  if auxiliary_size w =? 0 then zeroed
  else memset_mem zeroed (auxiliary_address w) 1 (auxiliary_size w).

Definition entry_method (w : World) : Z :=
  vmRunMethod_address (build w) (image_heap w)
    (vmRunMethodOffset (image_header w)).

Definition entry_args (w : World) (argc argv : Z) : VMRunArgs :=
  {| arg_primordialVmThreadLocals := primordial_address w;
     arg_bootHeapRegionStart := image_heap w;
     arg_auxiliarySpace := auxiliary_address w;
     arg_openDynamicLibrary := openDynamicLibrary;
     arg_dlsym := loadSymbol;
     arg_argc := argc;
     arg_argv := argv |}.

(** What a run looks like, outcome by outcome. *)
Inductive RunShape (w : World) (argc argv : Z) : Outcome Z -> Prop :=
| ShapeEnvironment s :
    os (build w) = DARWIN ->
    getenv w "DYLD_FORCE_FLAT_NAMESPACE" = None ->
    trace s = [Log MsgFlatNamespace] ->
    RunShape w argc argv (Exited 11 s)
| ShapePath name s :
    calls (trace s) = [] -> allocas (trace s) = [] -> mallocs (trace s) = [] ->
    closes (trace s) = [] -> image_loads (trace s) = [] ->
    In (Log (MsgCouldNotRead name)) (trace s) ->
    RunShape w argc argv (Exited 1 s)
| ShapePathFault s :
    calls (trace s) = [] -> allocas (trace s) = [] -> mallocs (trace s) = [] ->
    closes (trace s) = [] -> image_loads (trace s) = [] ->
    RunShape w argc argv (Fault s)
| ShapeImage path code s :
    image_load w path = LoadExit code ->
    calls (trace s) = [] -> allocas (trace s) = [] -> mallocs (trace s) = [] ->
    closes (trace s) = [] -> image_loads (trace s) = [] ->
    RunShape w argc argv (Exited code s)
| ShapeAllocation path fd s :
    image_load w path = Loaded fd ->
    auxiliary_size w <> 0 ->
    malloc w (auxiliary_size w) = 0 ->
    calls (trace s) = [] ->
    allocas (trace s) = [(primordial_block_size w, primordial_block w)] ->
    mallocs (trace s) = [(auxiliary_size w, 0)] ->
    closes (trace s) = [] -> image_loads (trace s) = [(path, fd)] ->
    In (Log (MsgAuxFailed (auxiliary_size w))) (trace s) ->
    RunShape w argc argv (Exited 1 s)
| ShapeReturn path fd s :
    image_load w path = Loaded fd ->
    (auxiliary_size w <> 0 -> malloc w (auxiliary_size w) <> 0) ->
    calls (trace s) = [(entry_method w, entry_args w argc argv, entry_memory w)] ->
    allocas (trace s) = [(primordial_block_size w, primordial_block w)] ->
    mallocs (trace s) =
      (if auxiliary_size w =? 0 then []
       else [(auxiliary_size w, auxiliary_address w)]) ->
    closes (trace s) = (if fd >? 0 then [(fd, close w fd)] else []) ->
    warned (trace s) = (fd >? 0) && negb (close w fd =? 0) ->
    image_loads (trace s) = [(path, fd)] ->
    allocas (since_call (trace s)) = [] ->
    mallocs (since_call (trace s)) = [] ->
    closes (until_call (trace s)) = [] ->
    warned (until_call (trace s)) = false ->
    RunShape w argc argv
      (Done (to_jint (vm_run w (entry_method w) (entry_args w argc argv)
                        (entry_memory w))) s).

(** [n] rounded up to the next multiple of the word size. *)
Definition round_up_to_word (c : Config) (n : Z) : Z :=
  sizeof_Address c * ((n + sizeof_Address c - 1) / sizeof_Address c).

(** ** Sample worlds *)

Definition sample_config (o : OS) (max_path : nat) (card_table log : bool)
  : Config :=
  {| os := o; sizeof_Address := 8; MAX_PATH_LENGTH := max_path;
     ENABLE_CARD_TABLE_VERIFICATION := card_table; log_LOADER := log |}.

Definition sample_header (locals aux : Z) : image_Header :=
  {| vmRunMethodOffset := 16; vmThreadLocalsSize := locals;
     auxiliarySpaceSize := aux |}.

(** A process with a stack at 1001, a heap at [heap_block] and memory full
    of 255 before [maxine] runs. *)
Definition sample_world (c : Config) (h : image_Header)
  (garbage : nat -> ascii) (env link : option string)
  (heap_block fd error exit_code : Z) : World :=
  {| build := c;
     getenv := fun _ => env;
     realpath := fun _ => link;
     readlink := fun _ => link;
     uninitialized := garbage;
     image_load := fun _ => Loaded fd;
     image_heap := 4096;
     image_header := h;
     alloca := fun _ => 1001;
     malloc := fun _ => heap_block;
     vm_run := fun _ _ _ => exit_code;
     close := fun _ => error;
     dladdr := fun _ => None;
     memory0 := fun _ => 255 |}.

(** The executable is /opt/app/bin/x, the image is opened as descriptor 3,
    the VM returns -7. *)
Definition linux_world (locals aux : Z) (log : bool) : World :=
  sample_world (sample_config LINUX 32 false log) (sample_header locals aux)
    (fun _ => "x"%char) None (Some "/opt/app/bin/x"%string) 2000 3 0 (-7).

(** The same, with the image opened as descriptor [fd] and [close]
    answering [error]. *)
Definition closing_world (fd error : Z) : World :=
  sample_world (sample_config LINUX 32 false false) (sample_header 16 4)
    (fun _ => "x"%char) None (Some "/opt/app/bin/x"%string) 2000 fd error (-7).

(** DYLD_FORCE_FLAT_NAMESPACE is not set. *)
Definition no_flat_namespace_world : World :=
  sample_world (sample_config DARWIN 32 false true) (sample_header 16 4)
    (fun _ => "x"%char) None (Some "/opt/app/bin/x"%string) 2000 3 0 0.

(** The link (or the path given at start-up) cannot be read. *)
Definition unreadable_path_world (o : OS) : World :=
  sample_world (sample_config o 32 false false) (sample_header 16 4)
    (fun _ => "x"%char) (Some "1"%string) None 2000 3 0 0.

(** [malloc] returns NULL. *)
Definition out_of_memory_world : World :=
  sample_world (sample_config LINUX 32 false false) (sample_header 16 4)
    (fun _ => "x"%char) None (Some "/opt/app/bin/x"%string) 0 3 0 0.

(** The bytes of the uninitialised array all hold a slash. *)
Definition stale_slash_world : World :=
  sample_world (sample_config LINUX 32 false false) (sample_header 16 4)
    (fun _ => "/"%char) None (Some "/opt/app/bin/x"%string) 2000 3 0 0.

(** The link is as long as the buffer: 32 characters. *)
Definition long_path_world (o : OS) : World :=
  sample_world (sample_config o 32 false false) (sample_header 16 4)
    (fun _ => "x"%char) None (Some "/opt/app/bin/a_very_long_name_xx"%string)
    2000 3 0 0.

(** An address inside the symbol [run] of libjvm, an address inside a module
    without symbol, and addresses that no module owns. *)
Definition trap_world : World :=
  {| build := sample_config LINUX 32 false false;
     getenv := fun _ => None;
     realpath := fun _ => None;
     readlink := fun _ => None;
     uninitialized := fun _ => NUL;
     image_load := fun _ => Loaded 3;
     image_heap := 4096;
     image_header := sample_header 16 4;
     alloca := fun _ => 1001;
     malloc := fun _ => 2000;
     vm_run := fun _ _ _ => 0;
     close := fun _ => 0;
     dladdr := fun a =>
       if a =? 5010 then
         Some {| dli_fname := "libjvm.so"; dli_fbase := 5000;
                 dli_sname := Some "run"%string; dli_saddr := 5008 |}
       else if a =? 6000 then
         Some {| dli_fname := "libc.so"; dli_fbase := 6000;
                 dli_sname := None; dli_saddr := 0 |}
       else None;
     memory0 := fun _ => 0 |}.

(** ** The rest of the file *)

(** [native_executablePath]: the array is static, so it starts out as
    zeros and keeps its content from one call to the next; the function
    takes the content it finds and returns the content it leaves, which is
    what the pointer it returns shows. *)
Definition native_executablePath (w : World) (result : list ascii)
  : M (list ascii) :=
  getExecutablePath w result.

Definition static_result0 (w : World) : list ascii :=
  repeat NUL (MAX_PATH_LENGTH (build w)).

(** Two calls in a row, the second on what the first left in the array. *)
Definition native_executablePath_twice (w : World)
  : M (list ascii * list ascii) :=
  first <- native_executablePath w (static_result0 w) ;;
  second <- native_executablePath w first ;;
  ret (first, second).

(** What the two bridge functions talk to: [dlopen] (always called with
    RTLD_LAZY), [dlsym], and the switch [log_LINKER] of log.h. *)
Record Linker : Type := {
  log_LINKER : bool;
  dlopen : option string -> Z;
  dlsym : Z -> string -> Z
}.

(** The lines of the bridge functions under [log_LINKER]; a NULL path and
    an address that [dladdr] cannot place are [None]. *)
Inductive LinkerMessage : Type :=
| MsgOpen (path : option string)
| MsgOpened (path : option string) (result : Z)
| MsgLoadSymbol (handle : Z) (symbol : string)
| MsgLoadedSymbol (handle : Z) (symbol : string) (result : Z)
    (fname : option string).

Module Bridges.

(** The function [openDynamicLibrary]: the lines it writes, oldest first,
    and the handle it returns. *)
Definition openDynamicLibrary (l : Linker) (path : option string)
  : list LinkerMessage * Z :=
  let before := if log_LINKER l then [MsgOpen path] else [] in
  let result := dlopen l path in
  let after := if log_LINKER l then [MsgOpened path result] else [] in
  (before ++ after, result).

(** The function [loadSymbol]. *)
Definition loadSymbol (w : World) (l : Linker) (handle : Z) (symbol : string)
  : list LinkerMessage * Z :=
  let before := if log_LINKER l then [MsgLoadSymbol handle symbol] else [] in
  let result := dlsym l handle symbol in
  let after :=
    if log_LINKER l then
      match dladdr w result with
      | Some info =>
          [MsgLoadedSymbol handle symbol result (Some (dli_fname info))]
      | None => [MsgLoadedSymbol handle symbol result None]
      end
    else [] in
  (before ++ after, result).

End Bridges.

(** ** Reading paths and traces *)

Definition is_slash (c : ascii) : bool := Ascii.eqb c "/"%char.

Definition has_slash (t : list ascii) : bool := existsb is_slash t.

Definition no_NUL (t : list ascii) : bool :=
  forallb (fun c => negb (Ascii.eqb c NUL)) t.

(** A path up to its last slash, the slash included; the whole path when
    it has none. *)
Fixpoint directory_of (t : list ascii) : list ascii :=
  match t with
  | [] => []
  | c :: r =>
      if has_slash r then c :: directory_of r
      else if is_slash c then [c]
      else c :: r
  end.

Definition is_log (e : Event) : bool :=
  match e with
  | Log _ => true
  | _ => false
  end.

(** What was done, oldest first, the log left out. *)
Definition actions (tr : list Event) : list Event :=
  rev (filter (fun e => negb (is_log e)) tr).

(** What was written, oldest first. *)
Fixpoint messages_newest_first (tr : list Event) : list Message :=
  match tr with
  | [] => []
  | Log m :: t => m :: messages_newest_first t
  | _ :: t => messages_newest_first t
  end.

Definition messages (tr : list Event) : list Message :=
  rev (messages_newest_first tr).

(** The lines of the [log_LOADER] block at the head of [maxine]. *)
Definition startup_messages (w : World) (argc argv : Z) : list Message :=
  if log_LOADER (build w) then
    (match os (build w) with
     | GUESTVMXEN => []
     | _ => [MsgLdLibraryPath (getenv w "LD_LIBRARY_PATH")]
     end)
    ++ MsgArguments argc argv
    :: map (fun i => MsgArg (Z.of_nat i)) (seq 0 (Z.to_nat argc))
  else [].


(** A Darwin build given /opt/app/bin/x at start-up. *)
Definition darwin_world : World :=
  sample_world (sample_config DARWIN 32 false false) (sample_header 16 4)
    (fun _ => "/"%char) (Some "1"%string) (Some "/opt/app/bin/x"%string)
    2000 3 0 0.


(** How the platform resolves the path of the executable to [target]. *)
Definition resolves_to (w : World) (s : State) (target : string) : Prop :=
  match os (build w) with
  | DARWIN =>
      realpath w (_executablePath s) = Some target /\
      no_NUL (list_ascii_of_string target) = true
  | GUESTVMXEN => target = EmptyString
  | LINUX => readlink w "/proc/self/exe" = Some target
  | SOLARIS => readlink w "/proc/self/path/a.out" = Some target
  end.

(** The close warning of a returning run. *)
Definition close_warning (w : World) (fd : Z) : list Message :=
  if (fd >? 0) && negb (close w fd =? 0) then [MsgCloseWarning] else [].

(** The executable lies so deep that its directory leaves no room for the
    name of the image in a buffer of 32 characters. *)
Definition deep_path_world : World :=
  sample_world (sample_config LINUX 32 false false) (sample_header 16 4)
    (fun _ => "x"%char) None (Some "/opt/app/bin/a_very_long_dir/x"%string)
    2000 3 0 0.

(** The buffer has 15 characters, one more than the link, and its
    uninitialised bytes hold slashes. *)
Definition tight_buffer_world : World :=
  sample_world (sample_config LINUX 15 false false) (sample_header 16 4)
    (fun _ => "/"%char) None (Some "/opt/app/bin/x"%string) 2000 3 0 0.

(** A build with the card table verification, and a header that asks for
    no auxiliary space. *)
Definition card_table_world : World :=
  sample_world (sample_config LINUX 32 true false) (sample_header 16 0)
    (fun _ => "x"%char) None (Some "/opt/app/bin/x"%string) 2000 3 0 0.

(** * Properties *)

(** ** The monad and the traces *)

Lemma bind_Done {A B : Type} (m : M A) (k : A -> M B) s b s' :
  bind m k s = Done b s' ->
  exists a s1, m s = Done a s1 /\ k a s1 = Done b s'.
Proof.
  unfold bind. destruct (m s) as [a s1|c s1|s1]; try discriminate.
  intros H. exists a, s1. split; [reflexivity|exact H].
Qed.

Lemma access_Done {A : Type} (o : option A) s a s' :
  access o s = Done a s' -> o = Some a /\ s' = s.
Proof.
  destruct o as [x|]; simpl; unfold ret, fault; intros H; inversion H.
  split; reflexivity.
Qed.

Lemma quiet_step_refl s : quiet_step s s.
Proof. split; [reflexivity|]. exists []. split; reflexivity. Qed.

Lemma quiet_step_trans s1 s2 s3 :
  quiet_step s1 s2 -> quiet_step s2 s3 -> quiet_step s1 s3.
Proof.
  intros [Hm1 [l1 [Ht1 Hq1]]] [Hm2 [l2 [Ht2 Hq2]]].
  split; [congruence|].
  exists (l2 ++ l1). split.
  - rewrite Ht2, Ht1. apply app_assoc.
  - rewrite forallb_app, Hq1, Hq2. reflexivity.
Qed.

Lemma quiet_step_push e s : quiet e = true -> quiet_step s (push e s).
Proof.
  intros He. split; [reflexivity|].
  exists [e]. split; [reflexivity|]. simpl. rewrite He. reflexivity.
Qed.

Lemma quiet_prefix (l t : list Event) :
  forallb quiet l = true ->
  calls (l ++ t) = calls t /\ allocas (l ++ t) = allocas t /\
  mallocs (l ++ t) = mallocs t /\ closes (l ++ t) = closes t /\
  warned (l ++ t) = warned t /\ image_loads (l ++ t) = image_loads t.
Proof.
  induction l as [|e l IH]; simpl; intros H.
  - repeat split.
  - apply andb_prop in H. destruct H as [He Hl].
    destruct (IH Hl) as (Hc & Ha & Hm & Hcl & Hw & Hi).
    destruct e as [m| | | | | | |]; try discriminate He; simpl;
      try (repeat split; assumption).
    destruct m; try discriminate He; repeat split; assumption.
Qed.

Lemma quiet_step_initial w s :
  quiet_step (initial w) s ->
  mem s = memory0 w /\ calls (trace s) = [] /\ allocas (trace s) = [] /\
  mallocs (trace s) = [] /\ closes (trace s) = [] /\
  warned (trace s) = false /\ image_loads (trace s) = [].
Proof.
  intros [Hm [l [Ht Hq]]]. split; [exact Hm|].
  rewrite Ht. destruct (quiet_prefix l (trace (initial w)) Hq)
    as (Hc & Ha & Hma & Hcl & Hw & Hi).
  rewrite Hc, Ha, Hma, Hcl, Hw, Hi. repeat split.
Qed.

(** ** The steps before the hand-over *)

Lemma check_environment_outcome w exe s :
  match check_environment w exe s with
  | Done _ s' => quiet_step s s'
  | Exited c s' =>
      c = 11 /\ os (build w) = DARWIN /\
      getenv w "DYLD_FORCE_FLAT_NAMESPACE" = None /\
      trace s' = Log MsgFlatNamespace :: trace s
  | Fault _ => False
  end.
Proof.
  unfold check_environment, is_DARWIN.
  destruct (os (build w)) eqn:Hos; simpl; try apply quiet_step_refl.
  unfold bind, set_executablePath.
  destruct (getenv w "DYLD_FORCE_FLAT_NAMESPACE") eqn:Henv; simpl.
  - split; [reflexivity|]. exists []. split; reflexivity.
  - repeat split.
Qed.

Lemma log_arguments_Done n : forall i s,
  exists s', log_arguments n i s = Done tt s' /\ quiet_step s s'.
Proof.
  induction n as [|n IH]; intros i s; simpl.
  - exists s. split; [reflexivity|apply quiet_step_refl].
  - unfold bind, log_println, emit.
    destruct (IH (i + 1) (push (Log (MsgArg i)) s)) as [s' [Hs' Hq]].
    exists s'. split; [exact Hs'|].
    eapply quiet_step_trans; [|exact Hq]. apply quiet_step_push. reflexivity.
Qed.

Lemma log_startup_Done w argc argv s :
  exists s', log_startup w argc argv s = Done tt s' /\ quiet_step s s'.
Proof.
  unfold log_startup.
  destruct (log_LOADER (build w)); simpl.
  2: { exists s. split; [reflexivity|apply quiet_step_refl]. }
  unfold bind, log_println, emit.
  destruct (negb (is_GUESTVMXEN w)); simpl.
  - match goal with |- context [log_arguments ?n ?i ?st] =>
      destruct (log_arguments_Done n i st) as [s' [Hs' Hq]] end.
    exists s'. split; [exact Hs'|].
    eapply quiet_step_trans; [|exact Hq].
    eapply quiet_step_trans; apply quiet_step_push; reflexivity.
  - match goal with |- context [log_arguments ?n ?i ?st] =>
      destruct (log_arguments_Done n i st) as [s' [Hs' Hq]] end.
    exists s'. split; [exact Hs'|].
    eapply quiet_step_trans; [|exact Hq]. apply quiet_step_push. reflexivity.
Qed.

Lemma access_outcome {A : Type} (o : option A) s :
  match access o s with
  | Done a s' => o = Some a /\ s' = s
  | Exited _ _ => False
  | Fault s' => o = None /\ s' = s
  end.
Proof. destruct o; simpl; split; reflexivity. Qed.

Lemma read_link_outcome w name b s :
  match read_link w name b s with
  | Done _ s' => s' = s
  | Exited c s' =>
      c = 1 /\ readlink w name = None /\
      s' = push (Log (MsgCouldNotRead name)) s
  | Fault s' => s' = s
  end.
Proof.
  unfold read_link. destruct (readlink w name) as [target|]; simpl.
  - unfold bind.
    destruct (store_chars b 0 _) as [b'|]; simpl; [|reflexivity].
    destruct (chop b' _); simpl; reflexivity.
  - repeat split.
Qed.

Lemma getExecutablePath_outcome w b s :
  match getExecutablePath w b s with
  | Done _ s' => s' = s
  | Exited c s' =>
      c = 1 /\ exists name, s' = push (Log (MsgCouldNotRead name)) s
  | Fault s' => s' = s
  end.
Proof.
  unfold getExecutablePath. destruct (os (build w)).
  - destruct (realpath w (_executablePath s)) as [resolved|]; simpl.
    + unfold bind.
      destruct (strcpy b 0 resolved) as [b1|]; simpl; [|reflexivity].
      destruct (strlen b1) as [n|]; simpl; [|reflexivity].
      destruct (chop b1 n); simpl; reflexivity.
    + split; [reflexivity|]. eexists. reflexivity.
  - destruct (buf_set b 0 NUL); simpl; reflexivity.
  - pose proof (read_link_outcome w "/proc/self/exe" b s) as H.
    destruct (read_link w "/proc/self/exe" b s); try exact H.
    destruct H as (Hc & _ & Hs). split; [exact Hc|]. eexists. exact Hs.
  - pose proof (read_link_outcome w "/proc/self/path/a.out" b s) as H.
    destruct (read_link w "/proc/self/path/a.out" b s); try exact H.
    destruct H as (Hc & _ & Hs). split; [exact Hc|]. eexists. exact Hs.
Qed.

Lemma getImageFilePath_outcome w b s :
  match getImageFilePath w b s with
  | Done _ s' => s' = s
  | Exited c s' =>
      c = 1 /\ exists name, s' = push (Log (MsgCouldNotRead name)) s
  | Fault s' => s' = s
  end.
Proof.
  assert (H : match (result <- getExecutablePath w b ;;
                     len <- access (strlen result) ;;
                     access (strcpy result len IMAGE_FILE_NAME)) s with
              | Done _ s' => s' = s
              | Exited c s' =>
                  c = 1 /\ exists name, s' = push (Log (MsgCouldNotRead name)) s
              | Fault s' => s' = s
              end).
  { unfold bind.
    pose proof (getExecutablePath_outcome w b s) as H.
    destruct (getExecutablePath w b s) as [b1 s1|c s1|s1]; try exact H.
    subst s1.
    destruct (strlen b1) as [n|]; simpl; [|reflexivity].
    destruct (strcpy b1 n IMAGE_FILE_NAME); simpl; reflexivity. }
  unfold getImageFilePath. destruct (os (build w)); try exact H.
  reflexivity.
Qed.

Lemma loadImage_outcome w s :
  match loadImage w s with
  | Done fd s' =>
      exists path, image_load w path = Loaded fd /\ s' = push (ImageLoad path fd) s
  | Exited c s' =>
      (c = 1 /\ exists name, s' = push (Log (MsgCouldNotRead name)) s) \/
      (s' = s /\ exists path, image_load w path = LoadExit c)
  | Fault s' => s' = s
  end.
Proof.
  unfold loadImage, bind.
  pose proof (getImageFilePath_outcome w (imageFilePath0 w) s) as H.
  destruct (getImageFilePath w (imageFilePath0 w) s) as [b s1|c s1|s1].
  - subst s1. unfold call_image_load.
    destruct (image_load w b) as [fd|code] eqn:Hl; simpl.
    + exists b. split; [exact Hl|reflexivity].
    + right. split; [reflexivity|]. exists b. exact Hl.
  - left. exact H.
  - exact H.
Qed.

(** ** The hand-over *)

(** The environment check and the start-up log leave a state that differs
    from the initial one by quiet events only. *)
Lemma startup_cases w argc argv exe :
  (exists s,
     (check_environment w exe ;;; log_startup w argc argv) (initial w) = Done tt s /\
     quiet_step (initial w) s) \/
  (exists s,
     (check_environment w exe ;;; log_startup w argc argv) (initial w) = Exited 11 s /\
     os (build w) = DARWIN /\
     getenv w "DYLD_FORCE_FLAT_NAMESPACE" = None /\
     trace s = [Log MsgFlatNamespace]).
Proof.
  unfold bind.
  pose proof (check_environment_outcome w exe (initial w)) as Q0.
  destruct (check_environment w exe (initial w)) as [[] s0|c s0|s0].
  - left. destruct (log_startup_Done w argc argv s0) as (s1 & Hlog & Q1).
    exists s1. split; [exact Hlog|].
    eapply quiet_step_trans; eassumption.
  - right. destruct Q0 as (Hc & Hos & Henv & Ht). subst c.
    exists s0. repeat split; assumption.
  - contradiction.
Qed.

Lemma maxine_unfold w argc argv exe s :
  maxine w argc argv exe s =
  bind (check_environment w exe ;;; log_startup w argc argv)
       (fun _ =>
          fd <- loadImage w ;;
          messenger_initialize ;;;
          threads_initialize ;;;
          primordialVmThreadLocals <- allocate_primordial w ;;
          auxiliarySpace <- allocate_auxiliary w ;;
          let args :=
            {| arg_primordialVmThreadLocals := primordialVmThreadLocals;
               arg_bootHeapRegionStart := image_heap w;
               arg_auxiliarySpace := auxiliarySpace;
               arg_openDynamicLibrary := openDynamicLibrary;
               arg_dlsym := loadSymbol;
               arg_argc := argc;
               arg_argv := argv |} in
          when (log_LOADER (build w)) (log_println (MsgEntering args)) ;;;
          exitCode <- call_method w (entry_method w) args ;;
          when (log_LOADER (build w)) (log_println (MsgStartExited exitCode)) ;;;
          close_image w fd ;;;
          when (log_LOADER (build w)) (log_println (MsgExitCode exitCode)) ;;;
          ret exitCode) s.
Proof.
  unfold maxine, bind.
  destruct (check_environment w exe s); reflexivity.
Qed.

Lemma run_shape w argc argv exe :
  RunShape w argc argv (run w argc argv exe).
Proof.
  unfold run. rewrite maxine_unfold. unfold bind at 1.
  destruct (startup_cases w argc argv exe)
    as [(s1 & Hs1 & Q)|(s1 & Hs1 & Hos & Henv & Ht)]; rewrite Hs1.
  2: { apply ShapeEnvironment; assumption. }
  apply quiet_step_initial in Q.
  destruct Q as (Hm & Hc & Ha & Hma & Hcl & Hw & Hi).
  unfold bind at 1.
  pose proof (loadImage_outcome w s1) as Q2.
  destruct (loadImage w s1) as [fd s2|c s2|s2].
  - destruct Q2 as (path & Himg & Hs2). subst s2.
    unfold allocate_primordial, allocate_auxiliary, close_image, call_method,
      call_alloca, call_malloc, call_close, messenger_initialize,
      threads_initialize, log_println, log_exit, memset, when, emit, exit, ret,
      bind.
    unfold warned in Hw.
    destruct (auxiliary_size w =? 0) eqn:Hsz.
    + destruct (log_LOADER (build w)), (fd >? 0) eqn:Hfd;
        try destruct (close w fd =? 0) eqn:Hclose;
        cbn [negb push mem trace _executablePath];
        match goal with |- RunShape _ _ _ (Done ?r ?s) =>
          replace r with
            (to_jint (vm_run w (entry_method w) (entry_args w argc argv)
                        (entry_memory w)))
            by (unfold entry_memory, entry_args, entry_method,
                  auxiliary_address, primordial_address, primordial_block,
                  primordial_block_size;
                rewrite Hsz, Hm; reflexivity)
        end;
        apply ShapeReturn with (path := path) (fd := fd);
        try exact Himg;
        try (intros Hn; apply Z.eqb_eq in Hsz; contradiction);
        unfold warned, entry_memory, entry_args, auxiliary_address;
        rewrite ?Hsz, ?Hfd, ?Hclose;
        cbn [push mem trace calls allocas mallocs closes image_loads existsb
             is_close_warning orb andb negb since_call until_call];
        rewrite ?Hc, ?Ha, ?Hma, ?Hcl, ?Hw, ?Hi, ?Hm; reflexivity.
    + destruct (malloc w (auxiliary_size w) =? 0) eqn:Hnull.
      * assert (Hsz' : auxiliary_size w <> 0) by (apply Z.eqb_neq; exact Hsz).
        apply Z.eqb_eq in Hnull.
        destruct (log_LOADER (build w));
          cbn [negb push mem trace _executablePath];
          apply ShapeAllocation with (path := path) (fd := fd);
          try assumption;
          cbn [push mem trace calls allocas mallocs closes image_loads];
          rewrite ?Hc, ?Ha, ?Hma, ?Hcl, ?Hi, ?Hnull;
          try reflexivity; simpl; auto.
      * destruct (log_LOADER (build w)), (fd >? 0) eqn:Hfd;
          try destruct (close w fd =? 0) eqn:Hclose;
          cbn [negb push mem trace _executablePath];
          match goal with |- RunShape _ _ _ (Done ?r ?s) =>
            replace r with
              (to_jint (vm_run w (entry_method w) (entry_args w argc argv)
                          (entry_memory w)))
              by (unfold entry_memory, entry_args, entry_method,
                    auxiliary_address, primordial_address, primordial_block,
                    primordial_block_size;
                  rewrite Hsz, Hm; reflexivity)
          end;
          apply ShapeReturn with (path := path) (fd := fd);
          try exact Himg;
          try (intros _; apply Z.eqb_neq; exact Hnull);
          unfold warned, entry_memory, entry_args, auxiliary_address;
          rewrite ?Hsz, ?Hfd, ?Hclose;
          cbn [push mem trace calls allocas mallocs closes image_loads existsb
               is_close_warning orb andb negb since_call until_call];
          rewrite ?Hc, ?Ha, ?Hma, ?Hcl, ?Hw, ?Hi, ?Hm; reflexivity.
  - destruct Q2 as [(Hc1 & name & Hs2)|(Hs2 & path & Himg)]; subst.
    + apply ShapePath with (name := name); simpl; auto.
    + apply ShapeImage with (path := path); assumption.
  - subst s2. apply ShapePathFault; assumption.
Qed.

Lemma run_Done_shape w argc argv exe r sf :
  run w argc argv exe = Done r sf ->
  RunShape w argc argv (Done r sf).
Proof. intros H. rewrite <- H. apply run_shape. Qed.

(** ** Word arithmetic *)

Lemma to_Address_small c z :
  0 <= z < 2 ^ address_bits c -> to_Address c z = z.
Proof. intros H. unfold to_Address. apply Z.mod_small. exact H. Qed.

Lemma to_Address_add_r c a b :
  to_Address c (a + to_Address c b) = to_Address c (a + b).
Proof. unfold to_Address. apply Zplus_mod_idemp_r. Qed.

Lemma to_Address_add_l c a b :
  to_Address c (to_Address c a + b) = to_Address c (a + b).
Proof. unfold to_Address. apply Zplus_mod_idemp_l. Qed.

Lemma to_jint_small v : - 2 ^ 31 <= v < 2 ^ 31 -> to_jint v = v.
Proof.
  intros H. unfold to_jint. rewrite Z.mod_small; lia.
Qed.

Lemma round_up_bounds k a :
  0 < k -> a <= k * ((a + k - 1) / k) < a + k.
Proof.
  intros Hk.
  pose proof (Z.div_mod (a + k - 1) k ltac:(lia)) as Hd.
  pose proof (Z.mod_pos_bound (a + k - 1) k Hk) as Hm.
  lia.
Qed.

Lemma round_up_aligned k a : (k * ((a + k - 1) / k)) mod k = 0.
Proof. rewrite Z.mul_comm. apply Z_mod_mult. Qed.

Lemma wordAlign_spec c a :
  0 < sizeof_Address c ->
  0 <= a -> a + sizeof_Address c <= 2 ^ address_bits c ->
  wordAlign c a mod sizeof_Address c = 0 /\
  a <= wordAlign c a < a + sizeof_Address c.
Proof.
  intros Hk Ha Hfit. unfold wordAlign.
  pose proof (round_up_bounds (sizeof_Address c) a Hk) as Hb.
  rewrite to_Address_small by lia.
  split; [apply round_up_aligned|exact Hb].
Qed.

Lemma memset_mem_inside m p c n a :
  p <= a < p + n -> memset_mem m p c n a = c.
Proof.
  intros H. unfold memset_mem.
  replace (p <=? a) with true by (symmetry; apply Z.leb_le; lia).
  replace (a <? p + n) with true by (symmetry; apply Z.ltb_lt; lia).
  reflexivity.
Qed.

Lemma memset_mem_outside m p c n a :
  ~ (p <= a < p + n) -> memset_mem m p c n a = m a.
Proof.
  intros H. unfold memset_mem.
  destruct (p <=? a) eqn:H1; [|reflexivity].
  destruct (a <? p + n) eqn:H2; [|reflexivity].
  apply Z.leb_le in H1. apply Z.ltb_lt in H2. lia.
Qed.

Lemma valid_header_sizes c h :
  0 < sizeof_Address c ->
  valid_header c h = true ->
  0 <= vmThreadLocalsSize h /\
  to_Address c (vmThreadLocalsSize h) = vmThreadLocalsSize h /\
  to_Address c (vmThreadLocalsSize h + sizeof_Address c)
    = vmThreadLocalsSize h + sizeof_Address c /\
  0 <= auxiliarySpaceSize h /\
  to_Address c (auxiliarySpaceSize h + REFERENCE_BUFFER_SIZE c)
    = auxiliarySpaceSize h + REFERENCE_BUFFER_SIZE c /\
  0 <= REFERENCE_BUFFER_SIZE c.
Proof.
  intros Hk Hv. unfold valid_header in Hv.
  apply andb_prop in Hv. destruct Hv as [Hv H4].
  apply andb_prop in Hv. destruct Hv as [Hv H3].
  apply andb_prop in Hv. destruct Hv as [H1 H2].
  apply Z.leb_le in H1. apply Z.ltb_lt in H2.
  apply Z.leb_le in H3. apply Z.ltb_lt in H4.
  assert (HR : 0 <= REFERENCE_BUFFER_SIZE c).
  { unfold REFERENCE_BUFFER_SIZE.
    destruct (ENABLE_CARD_TABLE_VERIFICATION c); lia. }
  repeat split; try assumption; apply to_Address_small; lia.
Qed.

(** ** The primordial thread locals *)

(** C2 (as amended): for every valid image header, with the stack block of
    [alloca] apart from the heap block of [malloc], the primordial thread
    locals passed to the entry call are word-aligned and lie in a stack
    block of [vmThreadLocalsSize] plus one word; at the moment of the call
    exactly the [vmThreadLocalsSize] bytes from the aligned address are
    zero-filled, and no byte outside them and outside the auxiliary space
    has been written. *)
Theorem primordial_context_zeroed w argc argv exe r sf :
  0 < sizeof_Address (build w) ->
  valid_header (build w) (image_header w) = true ->
  allocator_ok w = true ->
  run w argc argv exe = Done r sf ->
  exists method args m,
    calls (trace sf) = [(method, args, m)] /\
    let p := arg_primordialVmThreadLocals args in
    let size := vmThreadLocalsSize (image_header w) in
    let aux := arg_auxiliarySpace args in
    p mod sizeof_Address (build w) = 0 /\
    allocas (trace sf) = [(size + sizeof_Address (build w), primordial_block w)] /\
    primordial_block w <= p < primordial_block w + sizeof_Address (build w) /\
    (forall i, 0 <= i < size -> m (p + i) = 0) /\
    (forall x,
        ~ (p <= x < p + size) ->
        ~ (aux <= x < aux + auxiliary_size w) ->
        m x = memory0 w x).
Proof.
  intros Hk Hv Hok H.
  apply run_Done_shape in H. inversion H; subst; clear H.
  match goal with Hc : calls (trace _) = _ |- _ => rename Hc into Hcalls end.
  match goal with Ha : allocas (trace _) = _ |- _ => rename Ha into Hallocas end.
  match goal with Hn : _ <> 0 -> _ |- _ => rename Hn into Hnull end.
  exists (entry_method w), (entry_args w argc argv), (entry_memory w).
  split; [exact Hcalls|].
  destruct (valid_header_sizes _ _ Hk Hv) as (Hs0 & Hs1 & Hs2 & Ha0 & Ha1 & HR).
  unfold allocator_ok in Hok.
  apply andb_prop in Hok. destruct Hok as [Hok Hdis].
  apply andb_prop in Hok. destruct Hok as [Hlo Hhi].
  apply Z.leb_le in Hlo. apply Z.leb_le in Hhi.
  assert (Hn : primordial_block_size w
               = vmThreadLocalsSize (image_header w) + sizeof_Address (build w)).
  { unfold primordial_block_size. exact Hs2. }
  rewrite Hn in Hhi, Hdis, Hallocas.
  destruct (wordAlign_spec (build w) (primordial_block w) Hk Hlo ltac:(lia))
    as [Hal Hin].
  cbn [arg_primordialVmThreadLocals arg_auxiliarySpace entry_args].
  fold (primordial_address w) in Hal, Hin.
  split; [exact Hal|]. split; [exact Hallocas|]. split; [exact Hin|].
  unfold entry_memory. rewrite Hs1.
  destruct (auxiliary_size w =? 0) eqn:Hsz.
  - split.
    + intros i Hi. apply memset_mem_inside. lia.
    + intros x Hx _. apply memset_mem_outside. exact Hx.
  - assert (Hsz' : auxiliary_size w <> 0) by (apply Z.eqb_neq; exact Hsz).
    specialize (Hnull Hsz').
    assert (Haux : auxiliary_address w = malloc w (auxiliary_size w)).
    { unfold auxiliary_address. rewrite Hsz. reflexivity. }
    rewrite Haux.
    assert (Hd : malloc w (auxiliary_size w) + auxiliary_size w
                   <= primordial_block w \/
                 primordial_block w + (vmThreadLocalsSize (image_header w)
                                       + sizeof_Address (build w))
                   <= malloc w (auxiliary_size w)).
    { apply orb_prop in Hdis. destruct Hdis as [Hdis|Hdis].
      - apply orb_prop in Hdis. destruct Hdis as [Hdis|Hdis].
        + apply Z.eqb_eq in Hdis. contradiction.
        + left. apply Z.leb_le. exact Hdis.
      - right. apply Z.leb_le. exact Hdis. }
    split.
    + intros i Hi. rewrite memset_mem_outside by lia.
      apply memset_mem_inside. lia.
    + intros x Hx Hy. rewrite memset_mem_outside by exact Hy.
      apply memset_mem_outside. exact Hx.
Qed.

Lemma primordial_context_zeroed_witness :
  exists method args m,
    calls (trace (final_state (run (linux_world 16 4 true) 0 0 EmptyString)))
      = [(method, args, m)] /\
    let p := arg_primordialVmThreadLocals args in
    let aux := arg_auxiliarySpace args in
    p mod 8 = 0 /\
    allocas (trace (final_state (run (linux_world 16 4 true) 0 0 EmptyString)))
      = [(24, 1001)] /\
    1001 <= p < 1009 /\
    (forall i, 0 <= i < 16 -> m (p + i) = 0) /\
    (forall x,
        ~ (p <= x < p + 16) -> ~ (aux <= x < aux + 4) -> m x = 255).
Proof.
  apply (primordial_context_zeroed (linux_world 16 4 true) 0 0 EmptyString (-7)
           (final_state (run (linux_world 16 4 true) 0 0 EmptyString))).
  - reflexivity.
  - reflexivity.
  - reflexivity.
  - reflexivity.
Defined.

(** C2 (counterexample): with [vmThreadLocalsSize = 5] and words of 8 bytes
    the size rounded up to the next word boundary is 8, yet at the entry
    call the byte at offset 5 of the thread locals still holds what the
    stack held before: only 5 bytes were zero-filled. *)
Lemma primordial_context_not_rounded :
  exists method args m,
    valid_header (build (linux_world 5 0 false))
      (image_header (linux_world 5 0 false)) = true /\
    calls (trace (final_state (run (linux_world 5 0 false) 1 0 EmptyString)))
      = [(method, args, m)] /\
    round_up_to_word (build (linux_world 5 0 false)) 5 = 8 /\
    m (arg_primordialVmThreadLocals args + 5) <> 0.
Proof.
  eexists _, _, _. split; [reflexivity|]. split; [reflexivity|].
  split; [reflexivity|]. vm_compute. discriminate.
Qed.

(** ** The auxiliary space *)

(** C3: for every valid image header with [auxiliarySpaceSize > 0], the
    entry call is preceded by one [malloc] of [auxiliarySpaceSize] plus the
    reservation for the card table verification, and nothing is allocated
    after the call; the block returned is not NULL, is the auxiliary space
    passed to the call, and each of its bytes holds the poison value 1,
    which is not zero, in the memory in which the call starts. *)
Theorem auxiliary_space_poisoned w argc argv exe r sf :
  0 < sizeof_Address (build w) ->
  valid_header (build w) (image_header w) = true ->
  0 < auxiliarySpaceSize (image_header w) ->
  run w argc argv exe = Done r sf ->
  exists method args m,
    calls (trace sf) = [(method, args, m)] /\
    let aux := arg_auxiliarySpace args in
    let size :=
      auxiliarySpaceSize (image_header w) + REFERENCE_BUFFER_SIZE (build w) in
    mallocs (trace sf) = [(size, aux)] /\
    mallocs (since_call (trace sf)) = [] /\
    aux <> 0 /\
    (forall i, 0 <= i < size -> m (aux + i) = 1) /\
    1 <> 0.
Proof.
  intros Hk Hv Hpos H.
  apply run_Done_shape in H. inversion H; subst; clear H.
  match goal with Hc : calls (trace _) = _ |- _ => rename Hc into Hcalls end.
  match goal with Hm : mallocs (trace _) = _ |- _ => rename Hm into Hmallocs end.
  match goal with Hn : _ <> 0 -> _ |- _ => rename Hn into Hnull end.
  exists (entry_method w), (entry_args w argc argv), (entry_memory w).
  split; [exact Hcalls|].
  destruct (valid_header_sizes _ _ Hk Hv) as (Hs0 & Hs1 & Hs2 & Ha0 & Ha1 & HR).
  assert (Hsize : auxiliary_size w
                  = auxiliarySpaceSize (image_header w)
                    + REFERENCE_BUFFER_SIZE (build w)).
  { unfold auxiliary_size. exact Ha1. }
  assert (Hsz : (auxiliary_size w =? 0) = false).
  { apply Z.eqb_neq. lia. }
  assert (Hsz' : auxiliary_size w <> 0) by (apply Z.eqb_neq; exact Hsz).
  specialize (Hnull Hsz').
  cbn [arg_auxiliarySpace entry_args].
  rewrite Hsz in Hmallocs. unfold entry_memory, auxiliary_address.
  rewrite Hsz. unfold auxiliary_address in Hmallocs.
  rewrite Hsz in Hmallocs. rewrite Hsize in *.
  split; [exact Hmallocs|]. split; [assumption|]. split; [exact Hnull|].
  split; [|discriminate].
  intros i Hi. apply memset_mem_inside. lia.
Qed.

Lemma auxiliary_space_poisoned_witness :
  exists method args m,
    calls (trace (final_state (run (linux_world 16 4 true) 0 0 EmptyString)))
      = [(method, args, m)] /\
    let aux := arg_auxiliarySpace args in
    mallocs (trace (final_state (run (linux_world 16 4 true) 0 0 EmptyString)))
      = [(4, aux)] /\
    mallocs (since_call
               (trace (final_state (run (linux_world 16 4 true) 0 0 EmptyString))))
      = [] /\
    aux <> 0 /\
    (forall i, 0 <= i < 4 -> m (aux + i) = 1) /\
    1 <> 0.
Proof.
  apply (auxiliary_space_poisoned (linux_world 16 4 true) 0 0 EmptyString (-7)
           (final_state (run (linux_world 16 4 true) 0 0 EmptyString)));
    reflexivity.
Defined.

Lemma auxiliary_size_zero w :
  auxiliarySpaceSize (image_header w) = 0 ->
  ENABLE_CARD_TABLE_VERIFICATION (build w) = false ->
  auxiliary_size w = 0.
Proof.
  intros Hz Hoff. unfold auxiliary_size, REFERENCE_BUFFER_SIZE, to_Address.
  rewrite Hz, Hoff. apply Zmod_0_l.
Qed.

(** C4: with [auxiliarySpaceSize == 0] and the card table verification
    switched off, the auxiliary-space step returns address 0 and leaves the
    state as it was (no [malloc], no exit); no run of [maxine] calls
    [malloc]; and a run that reaches the entry point passes 0 as the
    auxiliary space. *)
Theorem no_auxiliary_space w argc argv exe :
  auxiliarySpaceSize (image_header w) = 0 ->
  ENABLE_CARD_TABLE_VERIFICATION (build w) = false ->
  (forall s, allocate_auxiliary w s = Done 0 s) /\
  mallocs (trace (final_state (run w argc argv exe))) = [] /\
  (forall r sf,
      run w argc argv exe = Done r sf ->
      exists method args m,
        calls (trace sf) = [(method, args, m)] /\
        arg_auxiliarySpace args = 0).
Proof.
  intros Hz Hoff.
  pose proof (auxiliary_size_zero w Hz Hoff) as Hsize.
  split; [|split].
  - intros s. unfold allocate_auxiliary. rewrite Hsize. reflexivity.
  - pose proof (run_shape w argc argv exe) as S.
    inversion S; simpl; try assumption.
    + match goal with Ht : trace _ = _ |- _ => rewrite Ht end. reflexivity.
    + contradiction.
    + match goal with Hm : mallocs (trace _) = _ |- _ => rewrite Hm end.
      rewrite Hsize. reflexivity.
  - intros r sf H.
    apply run_Done_shape in H. inversion H; subst; clear H.
    exists (entry_method w), (entry_args w argc argv), (entry_memory w).
    split; [assumption|].
    cbn [arg_auxiliarySpace entry_args]. unfold auxiliary_address.
    rewrite Hsize. reflexivity.
Qed.

Lemma no_auxiliary_space_witness :
  (forall s, allocate_auxiliary (linux_world 16 0 true) s = Done 0 s) /\
  mallocs (trace (final_state (run (linux_world 16 0 true) 0 0 EmptyString))) = [] /\
  (forall r sf,
      run (linux_world 16 0 true) 0 0 EmptyString = Done r sf ->
      exists method args m,
        calls (trace sf) = [(method, args, m)] /\
        arg_auxiliarySpace args = 0).
Proof.
  apply (no_auxiliary_space (linux_world 16 0 true) 0 0 EmptyString);
    reflexivity.
Defined.

(** ** The entry point *)

(** C5: the address called is [image_heap() + vmRunMethodOffset] in the
    arithmetic of [Address] (the sum itself when it fits a word); a run
    calls it once, it is the only address called; and moving the heap base
    or the offset by [d] moves the address by [d], again in the arithmetic
    of [Address] (by exactly [d] when both sums fit a word). *)
Theorem entry_point_address w argc argv exe r sf (heap offset d : Z) :
  run w argc argv exe = Done r sf ->
  let c := build w in
  (exists args m,
     calls (trace sf)
     = [(vmRunMethod_address c (image_heap w)
           (vmRunMethodOffset (image_header w)), args, m)]) /\
  vmRunMethod_address c heap offset = to_Address c (heap + offset) /\
  (0 <= heap + offset < 2 ^ address_bits c ->
   vmRunMethod_address c heap offset = heap + offset) /\
  vmRunMethod_address c (heap + d) offset
  = to_Address c (vmRunMethod_address c heap offset + d) /\
  vmRunMethod_address c heap (offset + d)
  = to_Address c (vmRunMethod_address c heap offset + d) /\
  (0 <= heap + offset < 2 ^ address_bits c ->
   0 <= heap + offset + d < 2 ^ address_bits c ->
   vmRunMethod_address c (heap + d) offset
   = vmRunMethod_address c heap offset + d /\
   vmRunMethod_address c heap (offset + d)
   = vmRunMethod_address c heap offset + d).
Proof.
  intros H c.
  assert (E : forall a b,
             vmRunMethod_address c a b = to_Address c (a + b)).
  { intros a b. unfold vmRunMethod_address. apply to_Address_add_r. }
  split; [|split; [|split; [|split; [|split]]]].
  - apply run_Done_shape in H. inversion H; subst; clear H.
    exists (entry_args w argc argv), (entry_memory w). assumption.
  - apply E.
  - intros Hfit. rewrite E. apply to_Address_small. exact Hfit.
  - rewrite !E, to_Address_add_l. f_equal. lia.
  - rewrite !E, to_Address_add_l. f_equal. lia.
  - intros Hfit Hfit'. rewrite !E.
    rewrite (to_Address_small c (heap + offset)) by exact Hfit.
    split; (etransitivity; [|apply to_Address_small; exact Hfit']);
      f_equal; lia.
Qed.

Lemma entry_point_address_witness :
  (exists args m,
     calls (trace (final_state (run (linux_world 16 4 false) 1 0 EmptyString)))
     = [(4112, args, m)]) /\
  vmRunMethod_address (sample_config LINUX 32 false false) 8192 (-16)
  = 8176.
Proof.
  pose proof (entry_point_address (linux_world 16 4 false) 1 0 EmptyString (-7)
                (final_state (run (linux_world 16 4 false) 1 0 EmptyString))
                8192 (-16) 4 eq_refl) as H.
  split; [exact (proj1 H)|].
  apply (proj1 (proj2 (proj2 H))). vm_compute. split; [discriminate|reflexivity].
Defined.

(** ** The exit code *)

(** C6: once [maxine] has called the entry point, the run returns: for
    every value of a 32-bit signed integer that the entry function returns,
    negative ones included, [maxine] returns exactly that value, whatever
    [close] answers afterwards.  The entry point is called once; the
    descriptor of the image is closed after the call, when it is greater
    than zero; and the warning is written exactly when that [close] fails,
    the returned value being the same. *)
Theorem exit_code_is_entry_result w argc argv exe method args m :
  In (method, args, m) (calls (trace (final_state (run w argc argv exe)))) ->
  - 2 ^ 31 <= vm_run w method args m < 2 ^ 31 ->
  exists sf path fd,
    run w argc argv exe = Done (vm_run w method args m) sf /\
    calls (trace sf) = [(method, args, m)] /\
    image_loads (trace sf) = [(path, fd)] /\
    image_load w path = Loaded fd /\
    closes (until_call (trace sf)) = [] /\
    closes (trace sf) = (if fd >? 0 then [(fd, close w fd)] else []) /\
    warned (trace sf) = (fd >? 0) && negb (close w fd =? 0).
Proof.
  intros Hin Hr.
  pose proof (run_shape w argc argv exe) as S.
  destruct (run w argc argv exe) as [r sf|c sf|sf]; cbn [final_state] in Hin;
    inversion S; subst;
    try match goal with Hc : calls (trace _) = _ |- _ => rewrite Hc in Hin end;
    try match goal with Ht : trace _ = _ |- _ => rewrite Ht in Hin end;
    try contradiction.
  destruct Hin as [Hin|[]]. inversion Hin; subst method args m.
  exists sf, path, fd.
  rewrite (to_jint_small _ Hr).
  split; [reflexivity|]. repeat split; assumption.
Qed.

Lemma exit_code_is_entry_result_witness :
  exists sf path fd,
    run (closing_world 3 (-1)) 1 0 EmptyString = Done (-7) sf /\
    calls (trace sf)
    = [(entry_method (closing_world 3 (-1)),
        entry_args (closing_world 3 (-1)) 1 0,
        entry_memory (closing_world 3 (-1)))] /\
    image_loads (trace sf) = [(path, fd)] /\
    image_load (closing_world 3 (-1)) path = Loaded fd /\
    closes (until_call (trace sf)) = [] /\
    closes (trace sf) = (if fd >? 0 then [(fd, -1)] else []) /\
    warned (trace sf) = (fd >? 0) && negb (-1 =? 0).
Proof.
  apply (exit_code_is_entry_result (closing_world 3 (-1)) 1 0 EmptyString
           (entry_method (closing_world 3 (-1)))
           (entry_args (closing_world 3 (-1)) 1 0)
           (entry_memory (closing_world 3 (-1)))).
  - left. reflexivity.
  - vm_compute. split; [discriminate|reflexivity].
Defined.

(** The failed [close] of the sample run is written down and changes
    nothing: the run with [close] answering -1 and the run with [close]
    answering 0 both return -7, the first with the warning. *)
Lemma failed_close_keeps_exit_code :
  exists s s',
    run (closing_world 3 (-1)) 1 0 EmptyString = Done (-7) s /\
    closes (trace s) = [(3, -1)] /\ warned (trace s) = true /\
    run (closing_world 3 0) 1 0 EmptyString = Done (-7) s' /\
    closes (trace s') = [(3, 0)] /\ warned (trace s') = false.
Proof.
  eexists _, _.
  split; [vm_compute; reflexivity|]. split; [reflexivity|].
  split; [reflexivity|]. split; [vm_compute; reflexivity|].
  split; reflexivity.
Qed.

(** C10: in a run that reaches the entry point, nothing is closed before
    the call of the entry point; after it the descriptor returned by
    [image_load] is closed, once, when it is greater than zero; when it is
    zero or negative nothing is closed and no warning is written. *)
Theorem image_closed_only_when_positive w argc argv exe r sf :
  run w argc argv exe = Done r sf ->
  exists path fd,
    image_loads (trace sf) = [(path, fd)] /\
    image_load w path = Loaded fd /\
    closes (until_call (trace sf)) = [] /\
    (0 < fd -> closes (trace sf) = [(fd, close w fd)]) /\
    (fd <= 0 -> closes (trace sf) = [] /\ warned (trace sf) = false).
Proof.
  intros H.
  apply run_Done_shape in H. inversion H; subst; clear H.
  exists path, fd.
  match goal with Hc : closes (trace _) = _ |- _ => rewrite Hc end.
  match goal with Hw : warned (trace _) = _ |- _ => rewrite Hw end.
  split; [assumption|]. split; [assumption|]. split; [assumption|]. split.
  - intros Hfd. replace (fd >? 0) with true; [reflexivity|].
    symmetry. apply Z.gtb_lt. exact Hfd.
  - intros Hfd. replace (fd >? 0) with false; [split; reflexivity|].
    symmetry. rewrite Z.gtb_ltb. apply Z.ltb_ge. exact Hfd.
Qed.

Lemma image_closed_only_when_positive_witness :
  exists path fd,
    image_loads (trace (final_state (run (closing_world 0 (-1)) 1 0 EmptyString)))
    = [(path, fd)] /\
    image_load (closing_world 0 (-1)) path = Loaded fd /\
    closes (until_call
              (trace (final_state (run (closing_world 0 (-1)) 1 0 EmptyString))))
    = [] /\
    (0 < fd ->
     closes (trace (final_state (run (closing_world 0 (-1)) 1 0 EmptyString)))
     = [(fd, close (closing_world 0 (-1)) fd)]) /\
    (fd <= 0 ->
     closes (trace (final_state (run (closing_world 0 (-1)) 1 0 EmptyString))) = [] /\
     warned (trace (final_state (run (closing_world 0 (-1)) 1 0 EmptyString)))
     = false).
Proof.
  apply (image_closed_only_when_positive (closing_world 0 (-1)) 1 0 EmptyString
           (-7) (final_state (run (closing_world 0 (-1)) 1 0 EmptyString))).
  reflexivity.
Defined.

(** ** Fatal conditions *)

Lemma log_arguments_path n : forall i s s',
  log_arguments n i s = Done tt s' -> _executablePath s' = _executablePath s.
Proof.
  induction n as [|n IH]; intros i s s'; simpl.
  - unfold ret. intros H. inversion H. reflexivity.
  - unfold bind, log_println, emit. intros H.
    apply IH in H. exact H.
Qed.

Lemma log_startup_path w argc argv s s' :
  log_startup w argc argv s = Done tt s' ->
  _executablePath s' = _executablePath s.
Proof.
  unfold log_startup, when, bind, log_println, emit, ret.
  destruct (log_LOADER (build w)); [|intros H; inversion H; reflexivity].
  destruct (negb (is_GUESTVMXEN w)); intros H;
    apply log_arguments_path in H; exact H.
Qed.

(** Away from Darwin, or with the variable set, the start-up goes
    through. *)
Lemma startup_Done w argc argv exe :
  (os (build w) = DARWIN -> getenv w "DYLD_FORCE_FLAT_NAMESPACE" <> None) ->
  exists s,
    (check_environment w exe ;;; log_startup w argc argv) (initial w) = Done tt s /\
    quiet_step (initial w) s /\
    (os (build w) = DARWIN -> _executablePath s = exe).
Proof.
  intros Hset. unfold bind.
  pose proof (check_environment_outcome w exe (initial w)) as Q0.
  destruct (check_environment w exe (initial w)) as [[] s0|c s0|s0] eqn:Hce.
  - destruct (log_startup_Done w argc argv s0) as (s1 & Hlog & Q1).
    exists s1. split; [exact Hlog|]. split.
    + eapply quiet_step_trans; eassumption.
    + intros Hos. rewrite (log_startup_path _ _ _ _ _ Hlog).
      revert Hce. unfold check_environment, is_DARWIN. rewrite Hos.
      unfold when, bind, set_executablePath, log_exit, emit, exit, ret.
      destruct (getenv w "DYLD_FORCE_FLAT_NAMESPACE"); intros H;
        inversion H; reflexivity.
  - destruct Q0 as (_ & Hos & Henv & _). specialize (Hset Hos). contradiction.
  - contradiction.
Qed.

Lemma run_after_startup w argc argv exe s1 c sf :
  (check_environment w exe ;;; log_startup w argc argv) (initial w) = Done tt s1 ->
  loadImage w s1 = Exited c sf ->
  run w argc argv exe = Exited c sf.
Proof.
  intros Hs1 Hload. unfold run. rewrite maxine_unfold.
  unfold bind at 1. rewrite Hs1. unfold bind at 1. rewrite Hload. reflexivity.
Qed.

Lemma unreadable_link_exits w argc argv exe name :
  (os (build w) = LINUX /\ name = "/proc/self/exe"%string) \/
  (os (build w) = SOLARIS /\ name = "/proc/self/path/a.out"%string) ->
  readlink w name = None ->
  exists s, run w argc argv exe = Exited 1 s.
Proof.
  intros Hos Hlink.
  destruct (startup_Done w argc argv exe) as (s1 & Hs1 & _ & _).
  { intros Hd. destruct Hos as [[Hos _]|[Hos _]]; congruence. }
  eexists. apply (run_after_startup _ _ _ _ _ _ _ Hs1).
  unfold loadImage, getImageFilePath, getExecutablePath.
  destruct Hos as [[Hos Hn]|[Hos Hn]]; subst name; rewrite Hos;
    unfold read_link; rewrite Hlink; reflexivity.
Qed.

Lemma unreadable_realpath_exits w argc argv exe :
  os (build w) = DARWIN ->
  getenv w "DYLD_FORCE_FLAT_NAMESPACE" <> None ->
  realpath w exe = None ->
  exists s, run w argc argv exe = Exited 1 s.
Proof.
  intros Hos Henv Hreal.
  destruct (startup_Done w argc argv exe) as (s1 & Hs1 & _ & Hpath).
  { intros _. exact Henv. }
  specialize (Hpath Hos).
  eexists. apply (run_after_startup _ _ _ _ _ _ _ Hs1).
  unfold loadImage, getImageFilePath, getExecutablePath. rewrite Hos.
  unfold bind at 1. unfold bind at 1. rewrite Hpath, Hreal. reflexivity.
Qed.

(** C1 (as amended): the fatal conditions of this file end the process with
    a small positive exit code: 11 when DYLD_FORCE_FLAT_NAMESPACE is
    missing, 1 when the path of the executable cannot be read (the link on
    Linux and Solaris, [realpath] on Darwin), 1 when [malloc] of the
    auxiliary space returns NULL.  The first code differs from the other
    two, which are the same.  Every other exit of [maxine] carries the code
    with which [image_load] ended the process. *)
Theorem fatal_exit_codes w argc argv exe :
  (os (build w) = DARWIN ->
   getenv w "DYLD_FORCE_FLAT_NAMESPACE" = None ->
   exists s, run w argc argv exe = Exited 11 s) /\
  (os (build w) = LINUX ->
   readlink w "/proc/self/exe" = None ->
   exists s, run w argc argv exe = Exited 1 s) /\
  (os (build w) = SOLARIS ->
   readlink w "/proc/self/path/a.out" = None ->
   exists s, run w argc argv exe = Exited 1 s) /\
  (os (build w) = DARWIN ->
   getenv w "DYLD_FORCE_FLAT_NAMESPACE" <> None ->
   realpath w exe = None ->
   exists s, run w argc argv exe = Exited 1 s) /\
  (forall size,
      In (size, 0) (mallocs (trace (final_state (run w argc argv exe)))) ->
      exists s, run w argc argv exe = Exited 1 s) /\
  (forall code s,
      run w argc argv exe = Exited code s ->
      code = 11 \/ code = 1 \/ exists path, image_load w path = LoadExit code) /\
  0 < 1 < 11.
Proof.
  split; [|split; [|split; [|split; [|split; [|split]]]]].
  - intros Hos Henv.
    destruct (startup_cases w argc argv exe)
      as [(s1 & Hs1 & _)|(s1 & Hs1 & _)].
    + exfalso. revert Hs1. unfold bind, check_environment, is_DARWIN.
      rewrite Hos. unfold when, bind, set_executablePath. rewrite Henv.
      discriminate.
    + exists s1. unfold run. rewrite maxine_unfold.
      unfold bind at 1. rewrite Hs1. reflexivity.
  - intros Hos Hlink. apply unreadable_link_exits with "/proc/self/exe"%string.
    + left. split; [exact Hos|reflexivity].
    + exact Hlink.
  - intros Hos Hlink.
    apply unreadable_link_exits with "/proc/self/path/a.out"%string.
    + right. split; [exact Hos|reflexivity].
    + exact Hlink.
  - apply unreadable_realpath_exits.
  - intros size Hin.
    pose proof (run_shape w argc argv exe) as S.
    destruct (run w argc argv exe) as [r sf|c sf|sf]; simpl in Hin;
      inversion S; subst;
      try match goal with Hm : mallocs (trace _) = _ |- _ => rewrite Hm in Hin end;
      try match goal with Ht : trace _ = _ |- _ => rewrite Ht in Hin end;
      try contradiction.
    + exfalso. destruct (auxiliary_size w =? 0) eqn:Hsz; [contradiction|].
      destruct Hin as [Hin|[]]. inversion Hin as [[Hs Ha]].
      unfold auxiliary_address in Ha. rewrite Hsz in Ha.
      match goal with Hn : _ <> 0 -> _ |- _ => apply Hn end.
      * apply Z.eqb_neq. exact Hsz.
      * exact Ha.
    + exists sf. reflexivity.
  - intros code s H.
    pose proof (run_shape w argc argv exe) as S. rewrite H in S.
    inversion S; subst; auto.
    right. right. exists path. assumption.
  - lia.
Qed.

Lemma fatal_exit_codes_witness :
  (exists s, run no_flat_namespace_world 1 0 "/opt/app/bin/x" = Exited 11 s) /\
  (exists s, run (unreadable_path_world LINUX) 1 0 EmptyString = Exited 1 s) /\
  (exists s, run (unreadable_path_world SOLARIS) 1 0 EmptyString = Exited 1 s) /\
  (exists s, run (unreadable_path_world DARWIN) 1 0 "x" = Exited 1 s) /\
  (exists s, run out_of_memory_world 1 0 EmptyString = Exited 1 s).
Proof.
  split; [|split; [|split; [|split]]].
  - apply (proj1 (fatal_exit_codes no_flat_namespace_world 1 0 "/opt/app/bin/x"));
      reflexivity.
  - apply (proj1 (proj2 (fatal_exit_codes (unreadable_path_world LINUX) 1 0
                           EmptyString)));
      reflexivity.
  - apply (proj1 (proj2 (proj2 (fatal_exit_codes (unreadable_path_world SOLARIS)
                                  1 0 EmptyString))));
      reflexivity.
  - apply (proj1 (proj2 (proj2 (proj2
             (fatal_exit_codes (unreadable_path_world DARWIN) 1 0 "x")))));
      [reflexivity|discriminate|reflexivity].
  - apply (proj1 (proj2 (proj2 (proj2 (proj2
             (fatal_exit_codes out_of_memory_world 1 0 EmptyString))))) 4).
    vm_compute. left. reflexivity.
Defined.

(** C1 (counterexample): a process that cannot read /proc/self/exe and a
    process whose [malloc] of the auxiliary space returns NULL end with the
    same exit code. *)
Lemma path_and_allocation_failure_share_exit_code :
  exists c1 s1 c2 s2,
    readlink (unreadable_path_world LINUX) "/proc/self/exe" = None /\
    run (unreadable_path_world LINUX) 1 0 EmptyString = Exited c1 s1 /\
    In (Log (MsgCouldNotRead "/proc/self/exe")) (trace s1) /\
    run out_of_memory_world 1 0 EmptyString = Exited c2 s2 /\
    In (Malloc 4 0) (trace s2) /\
    In (Log (MsgAuxFailed 4)) (trace s2) /\
    c1 = c2.
Proof.
  eexists _, _, _, _.
  split; [reflexivity|]. split; [vm_compute; reflexivity|].
  split; [simpl; auto|]. split; [vm_compute; reflexivity|].
  split; [simpl; auto|]. split; [simpl; auto|]. reflexivity.
Qed.

(** ** Traps in native code *)

(** C9: for every address and status code, [native_trap_exit] ends the
    process with that status code and writes the raw address, whatever
    [dladdr] answers: nothing more when no module owns the address, the
    module before it when the module has no symbol around the address, the
    module, the symbol and the signed offset before it otherwise. *)
Theorem native_trap_exit_terminates w code address s :
  exists s',
    native_trap_exit w code address s = Exited code s' /\
    mem s' = mem s /\
    (dladdr w address = None ->
     trace s' = Log (MsgTrap address) :: trace s) /\
    (forall info,
        dladdr w address = Some info -> dli_sname info = None ->
        trace s'
        = Log (MsgTrap address)
            :: Log (MsgInModule (dli_fname info) (dli_fbase info)) :: trace s) /\
    (forall info sname,
        dladdr w address = Some info -> dli_sname info = Some sname ->
        trace s'
        = Log (MsgTrap address)
            :: Log (MsgInSymbol (dli_fname info) (dli_fbase info) sname
                      (dli_saddr info)
                      (to_jint (to_Address (build w) (address - dli_saddr info))))
            :: trace s).
Proof.
  unfold native_trap_exit, log_println, log_exit, bind, emit, exit, ret.
  destruct (dladdr w address) as [info|] eqn:Hdl.
  - destruct (dli_sname info) as [sname|] eqn:Hs;
      eexists; (split; [reflexivity|]); (split; [reflexivity|]);
      (split; [discriminate|]); split.
    + intros info' Hi Hs'. inversion Hi; subst info'. congruence.
    + intros info' sname' Hi Hs'. inversion Hi; subst info'.
      rewrite Hs in Hs'. inversion Hs'; subst sname'. reflexivity.
    + intros info' Hi Hs'. inversion Hi; subst info'. reflexivity.
    + intros info' sname' Hi Hs'. inversion Hi; subst info'. congruence.
  - eexists. split; [reflexivity|]. split; [reflexivity|].
    split; [reflexivity|]. split; intros; discriminate.
Qed.

Lemma native_trap_exit_terminates_witness :
  (exists s',
     native_trap_exit trap_world 139 7000 (initial trap_world) = Exited 139 s' /\
     trace s' = [Log (MsgTrap 7000)]) /\
  (exists s',
     native_trap_exit trap_world (-1) 6000 (initial trap_world) = Exited (-1) s' /\
     trace s' = [Log (MsgTrap 6000); Log (MsgInModule "libc.so" 6000)]) /\
  (exists s',
     native_trap_exit trap_world 2 5010 (initial trap_world) = Exited 2 s' /\
     trace s'
     = [Log (MsgTrap 5010); Log (MsgInSymbol "libjvm.so" 5000 "run" 5008 2)]).
Proof.
  split; [|split].
  - destruct (native_trap_exit_terminates trap_world 139 7000 (initial trap_world))
      as (s' & He & _ & Hn & _).
    exists s'. split; [exact He|]. apply Hn. reflexivity.
  - destruct (native_trap_exit_terminates trap_world (-1) 6000 (initial trap_world))
      as (s' & He & _ & _ & Hm & _).
    exists s'. split; [exact He|]. apply (Hm _ eq_refl eq_refl).
  - destruct (native_trap_exit_terminates trap_world 2 5010 (initial trap_world))
      as (s' & He & _ & _ & _ & Hs).
    exists s'. split; [exact He|]. apply (Hs _ _ eq_refl eq_refl).
Defined.

(** ** The path of the executable *)

Lemma buf_set_length b : forall i c b',
  buf_set b i c = Some b' -> List.length b' = List.length b.
Proof.
  induction b as [|x t IH]; intros i c b'; simpl; [discriminate|].
  destruct i as [|j].
  - intros H. inversion H. reflexivity.
  - destruct (buf_set t j c) as [t'|] eqn:Ht; simpl; [|discriminate].
    intros H. inversion H. simpl. f_equal. eapply IH. exact Ht.
Qed.

Lemma buf_set_in_bounds b : forall i c,
  (i < List.length b)%nat -> exists b', buf_set b i c = Some b'.
Proof.
  induction b as [|x t IH]; intros i c Hi; simpl in *; [lia|].
  destruct i as [|j].
  - eexists. reflexivity.
  - destruct (IH j c ltac:(lia)) as [t' Ht]. rewrite Ht. eexists. reflexivity.
Qed.

Lemma store_chars_in_bounds cs : forall b off,
  (off + List.length cs <= List.length b)%nat ->
  exists b', store_chars b off cs = Some b' /\ List.length b' = List.length b.
Proof.
  induction cs as [|c r IH]; intros b off H; simpl in *.
  - exists b. split; reflexivity.
  - destruct (buf_set_in_bounds b off c ltac:(lia)) as [b1 Hb1].
    rewrite Hb1. pose proof (buf_set_length _ _ _ _ Hb1) as Hl.
    destruct (IH b1 (S off) ltac:(lia)) as (b' & Hb' & Hl').
    exists b'. split; [exact Hb'|congruence].
Qed.

Lemma chop_eq b i :
  chop b i =
  match buf_get b i with
  | None => None
  | Some c =>
      if Ascii.eqb c "/"%char then buf_set b (S i) NUL
      else match i with
           | O => Some b
           | S j => chop b j
           end
  end.
Proof. destruct i; reflexivity. Qed.

(** The loop always ends; it stays inside the buffer when the position it
    starts from leaves room for one more character. *)
Lemma chop_in_bounds b : forall i,
  (S i < List.length b)%nat ->
  exists b', chop b i = Some b' /\ List.length b' = List.length b.
Proof.
  induction i as [|j IH]; intros Hi; rewrite chop_eq; unfold buf_get.
  - destruct (nth_error b 0) as [c|] eqn:Hc.
    2: { apply nth_error_None in Hc. lia. }
    destruct (Ascii.eqb c "/").
    + destruct (buf_set_in_bounds b 1 NUL Hi) as [b' Hb'].
      exists b'. split; [exact Hb'|]. eapply buf_set_length. exact Hb'.
    + exists b. split; reflexivity.
  - destruct (nth_error b (S j)) as [c|] eqn:Hc.
    2: { apply nth_error_None in Hc. lia. }
    destruct (Ascii.eqb c "/").
    + destruct (buf_set_in_bounds b (S (S j)) NUL Hi) as [b' Hb'].
      exists b'. split; [exact Hb'|]. eapply buf_set_length. exact Hb'.
    + apply IH. lia.
Qed.

Lemma chop_past_end b i :
  (List.length b <= i)%nat -> chop b i = None.
Proof.
  intros Hi. rewrite chop_eq. unfold buf_get.
  rewrite (proj2 (nth_error_None b i) Hi). reflexivity.
Qed.

Lemma length_list_ascii_of_string s :
  List.length (list_ascii_of_string s) = String.length s.
Proof. induction s as [|c s IH]; simpl; [reflexivity|f_equal; exact IH]. Qed.

Lemma imageFilePath0_length w :
  List.length (imageFilePath0 w) = MAX_PATH_LENGTH (build w).
Proof. unfold imageFilePath0. rewrite length_map, length_seq. reflexivity. Qed.

(** X15: with a link shorter than the buffer by two characters or more,
    whatever the buffer held, the link is stored, the loop ends and every
    access stays inside the buffer. *)
Lemma read_link_in_bounds w name b s target :
  readlink w name = Some target ->
  List.length b = MAX_PATH_LENGTH (build w) ->
  (String.length target + 1 < MAX_PATH_LENGTH (build w))%nat ->
  exists b', read_link w name b s = Done b' s /\ List.length b' = List.length b.
Proof.
  intros Hlink Hb Hlen. unfold read_link. rewrite Hlink.
  assert (Hw : List.length (firstn (MAX_PATH_LENGTH (build w))
                              (list_ascii_of_string target))
               = String.length target).
  { rewrite length_firstn, length_list_ascii_of_string. lia. }
  unfold bind.
  destruct (store_chars_in_bounds
              (firstn (MAX_PATH_LENGTH (build w)) (list_ascii_of_string target))
              b 0 ltac:(lia)) as (b1 & Hb1 & Hl1).
  rewrite Hb1. simpl. rewrite Hw.
  destruct (chop_in_bounds b1 (String.length target) ltac:(lia))
    as (b2 & Hb2 & Hl2).
  rewrite Hb2. simpl. exists b2. split; [reflexivity|congruence].
Qed.

(** C8 (the defect): when the link fills the buffer (its target has
    [MAX_PATH_LENGTH] characters or more), [readlink] returns
    [MAX_PATH_LENGTH] and the first character that the loop reads lies one
    past the end of the buffer. *)
Theorem scan_starts_past_full_buffer w name b s target :
  readlink w name = Some target ->
  List.length b = MAX_PATH_LENGTH (build w) ->
  (MAX_PATH_LENGTH (build w) <= String.length target)%nat ->
  read_link w name b s = Fault s /\
  exists b',
    store_chars b 0 (firstn (MAX_PATH_LENGTH (build w))
                       (list_ascii_of_string target)) = Some b' /\
    List.length b' = MAX_PATH_LENGTH (build w) /\
    buf_get b' (MAX_PATH_LENGTH (build w)) = None.
Proof.
  intros Hlink Hb Hlen. unfold read_link. rewrite Hlink.
  assert (Hw : List.length (firstn (MAX_PATH_LENGTH (build w))
                              (list_ascii_of_string target))
               = MAX_PATH_LENGTH (build w)).
  { rewrite length_firstn, length_list_ascii_of_string. lia. }
  destruct (store_chars_in_bounds
              (firstn (MAX_PATH_LENGTH (build w)) (list_ascii_of_string target))
              b 0 ltac:(lia)) as (b1 & Hb1 & Hl1).
  unfold bind. rewrite Hb1. simpl. rewrite Hw.
  rewrite chop_past_end by lia. simpl. split; [reflexivity|].
  exists b1. split; [reflexivity|]. split; [congruence|].
  unfold buf_get. apply nth_error_None. lia.
Qed.

Lemma scan_starts_past_full_buffer_witness :
  read_link (long_path_world LINUX) "/proc/self/exe"
    (imageFilePath0 (long_path_world LINUX)) (initial (long_path_world LINUX))
  = Fault (initial (long_path_world LINUX)) /\
  exists b',
    store_chars (imageFilePath0 (long_path_world LINUX)) 0
      (firstn 32 (list_ascii_of_string "/opt/app/bin/a_very_long_name_xx"))
    = Some b' /\
    List.length b' = 32%nat /\
    buf_get b' 32 = None.
Proof.
  apply (scan_starts_past_full_buffer (long_path_world LINUX) "/proc/self/exe"
           (imageFilePath0 (long_path_world LINUX))
           (initial (long_path_world LINUX))
           "/opt/app/bin/a_very_long_name_xx").
  - reflexivity.
  - reflexivity.
  - vm_compute. lia.
Defined.

Lemma chop_skip b i c :
  buf_get b (S i) = Some c -> Ascii.eqb c "/"%char = false ->
  chop b (S i) = chop b i.
Proof. intros Hc Hne. rewrite chop_eq, Hc, Hne. reflexivity. Qed.

(** The link that filled the buffer stops the whole bootstrap. *)
Lemma full_buffer_run_faults :
  exists s, run (long_path_world LINUX) 1 0 EmptyString = Fault s.
Proof. eexists. vm_compute. reflexivity. Qed.

(** ** The path of the image *)

(** On Linux and Solaris, with the executable at /opt/app/bin/x, the image
    is looked for at /opt/app/bin/maxine.vm as long as the character that
    the array held behind the 14 characters of the link is not a slash. *)
Lemma image_path_next_to_executable w s name k :
  (os (build w) = LINUX /\ name = "/proc/self/exe"%string) \/
  (os (build w) = SOLARIS /\ name = "/proc/self/path/a.out"%string) ->
  readlink w name = Some "/opt/app/bin/x"%string ->
  MAX_PATH_LENGTH (build w) = (23 + k)%nat ->
  uninitialized w 14 <> "/"%char ->
  (exists d,
     getExecutablePath w (imageFilePath0 w) s = Done d s /\
     c_string d = Some "/opt/app/bin/"%string) /\
  (exists b,
     getImageFilePath w (imageFilePath0 w) s = Done b s /\
     c_string b = Some "/opt/app/bin/maxine.vm"%string).
Proof.
  intros Hos Hlink Hmax Hne.
  apply Ascii.eqb_neq in Hne.
  unfold getImageFilePath, getExecutablePath, imageFilePath0.
  destruct Hos as [[Hos Hn]|[Hos Hn]]; subst name; rewrite Hos;
    unfold read_link; rewrite Hlink, Hmax;
    cbn [seq map Nat.add list_ascii_of_string firstn store_chars buf_set
         option_map List.length bind access ret];
    unfold bind, ret;
    (erewrite chop_skip; [|reflexivity|exact Hne]);
    split; eexists; split; reflexivity.
Qed.

(** On Darwin [realpath] ends the path with a NUL, and the image is looked
    for next to the executable. *)
Lemma image_path_next_to_executable_darwin w s k :
  os (build w) = DARWIN ->
  realpath w (_executablePath s) = Some "/opt/app/bin/x"%string ->
  MAX_PATH_LENGTH (build w) = (23 + k)%nat ->
  (exists d,
     getExecutablePath w (imageFilePath0 w) s = Done d s /\
     c_string d = Some "/opt/app/bin/"%string) /\
  (exists b,
     getImageFilePath w (imageFilePath0 w) s = Done b s /\
     c_string b = Some "/opt/app/bin/maxine.vm"%string).
Proof.
  intros Hos Hlink Hmax.
  unfold getImageFilePath, getExecutablePath, imageFilePath0.
  rewrite Hos. split.
  - cbv beta. rewrite Hlink, Hmax. eexists; split; reflexivity.
  - unfold bind at 1. rewrite Hlink, Hmax. eexists; split; reflexivity.
Qed.

(** C7 (the defect): on Linux and Solaris [readlink] stores the 14
    characters of /opt/app/bin/x and no NUL, and the loop starts at the
    character behind them, which the array held before.  When that
    character is a slash the loop stops at once: the name of the executable
    is not chopped off, the directory is /opt/app/bin/x/ and the image is
    looked for at /opt/app/bin/x/maxine.vm. *)
Theorem image_path_after_stale_slash w s name k :
  (os (build w) = LINUX /\ name = "/proc/self/exe"%string) \/
  (os (build w) = SOLARIS /\ name = "/proc/self/path/a.out"%string) ->
  readlink w name = Some "/opt/app/bin/x"%string ->
  MAX_PATH_LENGTH (build w) = (25 + k)%nat ->
  uninitialized w 14 = "/"%char ->
  (exists d,
     getExecutablePath w (imageFilePath0 w) s = Done d s /\
     c_string d = Some "/opt/app/bin/x/"%string) /\
  (exists b,
     getImageFilePath w (imageFilePath0 w) s = Done b s /\
     c_string b = Some "/opt/app/bin/x/maxine.vm"%string).
Proof.
  intros Hos Hlink Hmax Hsl.
  unfold getImageFilePath, getExecutablePath, imageFilePath0.
  destruct Hos as [[Hos Hn]|[Hos Hn]]; subst name; rewrite Hos;
    unfold read_link; rewrite Hlink, Hmax;
    cbn [seq map Nat.add list_ascii_of_string firstn store_chars buf_set
         option_map List.length bind access ret];
    rewrite Hsl; split; eexists; split; reflexivity.
Qed.

Lemma image_path_after_stale_slash_witness :
  (exists d,
     getExecutablePath stale_slash_world (imageFilePath0 stale_slash_world)
       (initial stale_slash_world) = Done d (initial stale_slash_world) /\
     c_string d = Some "/opt/app/bin/x/"%string) /\
  (exists b,
     getImageFilePath stale_slash_world (imageFilePath0 stale_slash_world)
       (initial stale_slash_world) = Done b (initial stale_slash_world) /\
     c_string b = Some "/opt/app/bin/x/maxine.vm"%string).
Proof.
  apply (image_path_after_stale_slash stale_slash_world
           (initial stale_slash_world) "/proc/self/exe" 7).
  - left. split; reflexivity.
  - reflexivity.
  - reflexivity.
  - reflexivity.
Defined.

(** * The rest of the file *)

Lemma has_slash_app l r : has_slash (l ++ r) = has_slash l || has_slash r.
Proof. unfold has_slash. apply existsb_app. Qed.

Lemma directory_of_no_slash t : has_slash t = false -> directory_of t = t.
Proof.
  destruct t as [|c r]; [reflexivity|]. simpl. intros H.
  apply orb_false_elim in H. destruct H as [Hc Hr]. rewrite Hr, Hc. reflexivity.
Qed.

Lemma directory_of_snoc_slash l c :
  is_slash c = true -> directory_of (l ++ [c]) = l ++ [c].
Proof.
  intros Hc. induction l as [|x l IH]; simpl.
  - rewrite Hc. reflexivity.
  - rewrite has_slash_app. simpl. rewrite Hc, orb_true_r. simpl.
    f_equal. exact IH.
Qed.

Lemma directory_of_snoc_other l c :
  has_slash l = true -> is_slash c = false ->
  directory_of (l ++ [c]) = directory_of l.
Proof.
  intros Hl Hc. induction l as [|x l IH]; [discriminate|].
  simpl. rewrite has_slash_app. simpl. rewrite Hc, !orb_false_r.
  destruct (has_slash l) eqn:Hsl.
  - f_equal. apply IH. reflexivity.
  - simpl in Hl. rewrite Hsl, orb_false_r in Hl. rewrite Hl. reflexivity.
Qed.

Lemma directory_of_prefix t : exists t2, t = directory_of t ++ t2.
Proof.
  induction t as [|c r IH]; simpl.
  - exists []. reflexivity.
  - destruct (has_slash r).
    + destruct IH as [t2 Ht2]. exists t2. simpl. f_equal. exact Ht2.
    + destruct (is_slash c).
      * exists r. reflexivity.
      * exists []. rewrite app_nil_r. reflexivity.
Qed.

Lemma directory_of_ends_with_slash t :
  has_slash t = true ->
  exists d c, directory_of t = d ++ [c] /\ is_slash c = true.
Proof.
  induction t as [|x r IH]; [discriminate|]. simpl. intros H.
  destruct (has_slash r) eqn:Hr.
  - destruct (IH eq_refl) as (d & c & Hd & Hc).
    exists (x :: d), c. simpl. rewrite Hd. split; [reflexivity|exact Hc].
  - rewrite orb_false_r in H. rewrite H. exists [], x. split; [reflexivity|exact H].
Qed.

Lemma buf_set_app pre x post c :
  buf_set (pre ++ x :: post) (List.length pre) c = Some (pre ++ c :: post).
Proof.
  induction pre as [|y pre IH]; simpl; [reflexivity|].
  rewrite IH. reflexivity.
Qed.

Lemma nth_error_middle (pre : list ascii) x post :
  nth_error (pre ++ x :: post) (List.length pre) = Some x.
Proof. induction pre as [|y pre IH]; simpl; [reflexivity|exact IH]. Qed.

(** The loop, started on the last character of [l], finds the last slash
    of [l] and stores NUL behind it. *)
Lemma chop_finds_last_slash l : forall r,
  l <> [] ->
  chop (l ++ r) (List.length l - 1) =
  if has_slash l then buf_set (l ++ r) (List.length (directory_of l)) NUL
  else Some (l ++ r).
Proof.
  induction l as [|c l' IH] using rev_ind; intros r Hne; [contradiction|].
  clear Hne. rewrite length_app. simpl.
  replace (List.length l' + 1 - 1)%nat with (List.length l') by lia.
  rewrite chop_eq. unfold buf_get. rewrite <- app_assoc. simpl.
  rewrite nth_error_middle. fold (is_slash c).
  rewrite has_slash_app. simpl. rewrite orb_false_r.
  destruct (is_slash c) eqn:Hc.
  - rewrite orb_true_r.
    change (l' ++ c :: r) with (l' ++ [c] ++ r). rewrite app_assoc.
    rewrite directory_of_snoc_slash by exact Hc.
    rewrite length_app. simpl. f_equal. lia.
  - rewrite orb_false_r.
    destruct l' as [|y l''].
    + reflexivity.
    + specialize (IH (c :: r) ltac:(discriminate)).
      remember (y :: l'') as l eqn:Hl.
      assert (Hlen : List.length l = S (List.length l'')) by (subst l; reflexivity).
      rewrite Hlen in IH |- *.
      replace (S (List.length l'') - 1)%nat with (List.length l'') in IH by lia.
      cbv iota. rewrite IH.
      destruct (has_slash l) eqn:Hs; [|reflexivity].
      change (l ++ c :: r) with (l ++ [c] ++ r).
      rewrite (app_assoc l [c] r).
      rewrite directory_of_snoc_other by assumption. reflexivity.
Qed.

Lemma chop_directory t z r :
  is_slash z = false ->
  has_slash t = true \/ z = NUL ->
  exists rest,
    chop (t ++ z :: r) (List.length t) = Some (directory_of t ++ NUL :: rest) /\
    List.length (directory_of t ++ NUL :: rest) = List.length (t ++ z :: r) /\
    (z = NUL -> skipn (List.length t) (directory_of t ++ NUL :: rest) = NUL :: r).
Proof.
  intros Hz Hcase.
  pose proof (chop_finds_last_slash (t ++ [z]) r) as H.
  rewrite <- app_assoc in H. simpl in H.
  rewrite length_app in H. simpl in H.
  replace (List.length t + 1 - 1)%nat with (List.length t) in H by lia.
  rewrite has_slash_app in H. simpl in H. rewrite Hz, !orb_false_r in H.
  specialize (H ltac:(destruct t; discriminate)).
  destruct (has_slash t) eqn:Hs.
  - rewrite directory_of_snoc_other in H by assumption.
    destruct (directory_of_prefix t) as [t2 Ht2].
    remember (directory_of t) as d eqn:Hd.
    destruct t2 as [|x t2'].
    + rewrite app_nil_r in Ht2. subst t.
      rewrite buf_set_app in H. exists r. split; [exact H|].
      split; [rewrite !length_app; reflexivity|].
      intros _. rewrite skipn_app, skipn_all, Nat.sub_diag. reflexivity.
    + assert (E : t ++ z :: r = d ++ x :: t2' ++ z :: r).
      { rewrite Ht2 at 1. rewrite <- app_assoc. reflexivity. }
      rewrite E in H. rewrite buf_set_app in H.
      exists (t2' ++ z :: r). split; [rewrite E; exact H|]. split.
      * rewrite E, !length_app. simpl. rewrite !length_app. simpl. lia.
      * intros Hnul. subst z.
        change (d ++ NUL :: t2' ++ NUL :: r)
          with (d ++ (NUL :: t2') ++ NUL :: r).
        rewrite app_assoc.
        assert (Hl : List.length t = List.length (d ++ NUL :: t2')).
        { rewrite Ht2 at 1. rewrite !length_app. reflexivity. }
        rewrite Hl, skipn_app, skipn_all, Nat.sub_diag. reflexivity.
  - destruct Hcase as [Hcase|Hcase]; [discriminate|]. subst z.
    rewrite directory_of_no_slash by exact Hs.
    exists r. split; [exact H|]. split; [reflexivity|].
    intros _. rewrite skipn_app, skipn_all, Nat.sub_diag. reflexivity.
Qed.

Lemma no_NUL_app l r : no_NUL (l ++ r) = no_NUL l && no_NUL r.
Proof. unfold no_NUL. apply forallb_app. Qed.

Lemma no_NUL_directory t : no_NUL t = true -> no_NUL (directory_of t) = true.
Proof.
  intros H. destruct (directory_of_prefix t) as [t2 Ht2].
  rewrite Ht2, no_NUL_app in H. apply andb_prop in H. apply H.
Qed.

Lemma strlen_terminated d rest :
  no_NUL d = true -> strlen (d ++ NUL :: rest) = Some (List.length d).
Proof.
  induction d as [|c d IH]; simpl; intros H; [reflexivity|].
  apply andb_prop in H. destruct H as [Hc Hd].
  apply negb_true_iff in Hc. rewrite Hc, (IH Hd). reflexivity.
Qed.

Lemma c_string_terminated d rest :
  no_NUL d = true ->
  c_string (d ++ NUL :: rest) = Some (string_of_list_ascii d).
Proof.
  induction d as [|c d IH]; simpl; intros H; [reflexivity|].
  apply andb_prop in H. destruct H as [Hc Hd].
  apply negb_true_iff in Hc. rewrite Hc, (IH Hd). reflexivity.
Qed.

Lemma store_chars_middle cs : forall pre mid post,
  List.length mid = List.length cs ->
  store_chars (pre ++ mid ++ post) (List.length pre) cs = Some (pre ++ cs ++ post).
Proof.
  induction cs as [|c cs IH]; intros pre mid post Hlen.
  - destruct mid; [reflexivity|discriminate].
  - destruct mid as [|m mid]; [discriminate|]. simpl in Hlen.
    simpl. rewrite buf_set_app.
    change (pre ++ c :: mid ++ post) with (pre ++ [c] ++ mid ++ post).
    rewrite app_assoc.
    replace (S (List.length pre)) with (List.length (pre ++ [c]))
      by (rewrite length_app; simpl; lia).
    rewrite IH by lia. rewrite <- app_assoc. reflexivity.
Qed.

Lemma store_chars_front cs b :
  (List.length cs <= List.length b)%nat ->
  store_chars b 0 cs = Some (cs ++ skipn (List.length cs) b).
Proof.
  intros H.
  rewrite <- (firstn_skipn (List.length cs) b) at 1.
  apply (store_chars_middle cs [] (firstn (List.length cs) b)).
  rewrite length_firstn. lia.
Qed.

Lemma skipn_cons_nth (b : list ascii) n z :
  nth_error b n = Some z -> skipn n b = z :: skipn (S n) b.
Proof.
  revert n. induction b as [|x b IH]; intros [|n]; simpl; try discriminate.
  - intros H. inversion H. reflexivity.
  - intros H. apply IH. exact H.
Qed.

(** What [readlink] and the loop leave in the buffer. *)
Lemma read_link_directory w name b s target z :
  let t := list_ascii_of_string target in
  readlink w name = Some target ->
  List.length b = MAX_PATH_LENGTH (build w) ->
  nth_error b (List.length t) = Some z ->
  is_slash z = false ->
  has_slash t = true \/ z = NUL ->
  exists rest,
    read_link w name b s = Done (directory_of t ++ NUL :: rest) s /\
    List.length (directory_of t ++ NUL :: rest) = List.length b /\
    (z = NUL ->
     skipn (List.length t) (directory_of t ++ NUL :: rest)
     = skipn (List.length t) b).
Proof.
  intros t Hlink Hb Hz Hns Hcase.
  assert (Hn : (List.length t < List.length b)%nat).
  { apply nth_error_Some. rewrite Hz. discriminate. }
  unfold read_link. rewrite Hlink. fold t.
  rewrite firstn_all2 by lia.
  unfold bind. rewrite store_chars_front by lia. simpl.
  rewrite (skipn_cons_nth _ _ _ Hz).
  destruct (chop_directory t z (skipn (S (List.length t)) b) Hns Hcase)
    as (rest & Hchop & Hlen & Htail).
  rewrite Hchop. simpl. exists rest. split; [reflexivity|]. split.
  - rewrite Hlen, <- (skipn_cons_nth _ _ _ Hz), length_app, length_skipn. lia.
  - intros Hnul. rewrite (Htail Hnul). subst z. reflexivity.
Qed.

Lemma string_of_list_ascii_app l r :
  string_of_list_ascii (l ++ r)
  = String.append (string_of_list_ascii l) (string_of_list_ascii r).
Proof. induction l as [|c l IH]; simpl; [reflexivity|f_equal; exact IH]. Qed.

Lemma buf_set_past_end b : forall i c,
  (List.length b <= i)%nat -> buf_set b i c = None.
Proof.
  induction b as [|x b IH]; intros i c H; simpl in *; [reflexivity|].
  destruct i as [|j]; [lia|]. rewrite IH by lia. reflexivity.
Qed.

Lemma store_chars_overflow cs : forall b off,
  (off <= List.length b)%nat ->
  (List.length b < off + List.length cs)%nat ->
  store_chars b off cs = None.
Proof.
  induction cs as [|c cs IH]; intros b off Hoff Hlen; simpl in *; [lia|].
  destruct (Nat.lt_ge_cases off (List.length b)) as [H|H].
  - destruct (buf_set_in_bounds b off c H) as [b' Hset]. rewrite Hset.
    pose proof (buf_set_length _ _ _ _ Hset) as Hl.
    apply IH; lia.
  - rewrite buf_set_past_end by exact H. reflexivity.
Qed.

(** Appending the name of the image to a directory held by the buffer. *)
Lemma append_image_name d rest s :
  no_NUL d = true ->
  (List.length d + 10 <= List.length (d ++ NUL :: rest))%nat ->
  exists rest',
    (len <- access (strlen (d ++ NUL :: rest)) ;;
     access (strcpy (d ++ NUL :: rest) len IMAGE_FILE_NAME)) s
    = Done (d ++ list_ascii_of_string IMAGE_FILE_NAME ++ NUL :: rest') s /\
    c_string (d ++ list_ascii_of_string IMAGE_FILE_NAME ++ NUL :: rest')
    = Some (String.append (string_of_list_ascii d) IMAGE_FILE_NAME).
Proof.
  intros Hd Hroom. unfold bind.
  rewrite strlen_terminated by exact Hd. simpl access. unfold ret.
  unfold strcpy.
  pose proof (store_chars_middle (list_ascii_of_string IMAGE_FILE_NAME ++ [NUL])
                d (firstn 10 (NUL :: rest)) (skipn 10 (NUL :: rest))) as E.
  rewrite firstn_skipn in E. rewrite E.
  2: { rewrite length_firstn. rewrite length_app in Hroom.
       simpl List.length in *. lia. }
  simpl access. unfold ret.
  exists (skipn 10 (NUL :: rest)). split; [reflexivity|].
  rewrite app_assoc, c_string_terminated.
  - rewrite string_of_list_ascii_app. reflexivity.
  - rewrite no_NUL_app, Hd. reflexivity.
Qed.

Lemma append_image_name_overflow d rest s :
  no_NUL d = true ->
  (List.length (d ++ NUL :: rest) < List.length d + 10)%nat ->
  (len <- access (strlen (d ++ NUL :: rest)) ;;
   access (strcpy (d ++ NUL :: rest) len IMAGE_FILE_NAME)) s
  = Fault s.
Proof.
  intros Hd Hroom. unfold bind.
  rewrite strlen_terminated by exact Hd. simpl access. unfold ret.
  unfold strcpy. rewrite store_chars_overflow; [reflexivity| |].
  - rewrite length_app. lia.
  - simpl List.length in *. lia.
Qed.

Lemma getExecutablePath_read_link w name b s :
  (os (build w) = LINUX /\ name = "/proc/self/exe"%string) \/
  (os (build w) = SOLARIS /\ name = "/proc/self/path/a.out"%string) ->
  getExecutablePath w b s = read_link w name b s.
Proof.
  intros [[Hos Hn]|[Hos Hn]]; subst name; unfold getExecutablePath;
    rewrite Hos; reflexivity.
Qed.

Lemma getImageFilePath_unfold w b s :
  os (build w) <> GUESTVMXEN ->
  getImageFilePath w b s =
  (result <- getExecutablePath w b ;;
   len <- access (strlen result) ;;
   access (strcpy result len IMAGE_FILE_NAME)) s.
Proof.
  intros Hos. unfold getImageFilePath.
  destruct (os (build w)); try reflexivity. contradiction.
Qed.

(** X1: on Linux and Solaris, for every link target without NUL that is
    shorter than the buffer, when the character that the buffer held behind
    the link is not a slash and the target has a slash (or that character
    is NUL), [getExecutablePath] leaves the target up to and including its
    last slash (the whole target when it has no slash) as a C string in the
    buffer. *)
Theorem directory_of_link w name b s target z :
  let t := list_ascii_of_string target in
  (os (build w) = LINUX /\ name = "/proc/self/exe"%string) \/
  (os (build w) = SOLARIS /\ name = "/proc/self/path/a.out"%string) ->
  readlink w name = Some target ->
  no_NUL t = true ->
  List.length b = MAX_PATH_LENGTH (build w) ->
  nth_error b (List.length t) = Some z ->
  is_slash z = false ->
  has_slash t = true \/ z = NUL ->
  exists d,
    getExecutablePath w b s = Done d s /\
    List.length d = List.length b /\
    c_string d = Some (string_of_list_ascii (directory_of t)).
Proof.
  intros t Hos Hlink Hnn Hb Hz Hns Hcase. subst t.
  rewrite (getExecutablePath_read_link w name b s Hos).
  destruct (read_link_directory w name b s target z Hlink Hb Hz Hns Hcase)
    as (rest & Hrun & Hlen & _).
  eexists. split; [exact Hrun|]. split; [exact Hlen|].
  apply c_string_terminated. apply no_NUL_directory. exact Hnn.
Qed.

(** X2: under the same conditions [getImageFilePath] leaves the
    directory followed by maxine.vm when the directory, the name and the
    NUL fit the buffer; when they do not fit, [strcpy] writes past the end
    of the buffer. *)
Theorem image_path_of_link w name b s target z :
  let t := list_ascii_of_string target in
  (os (build w) = LINUX /\ name = "/proc/self/exe"%string) \/
  (os (build w) = SOLARIS /\ name = "/proc/self/path/a.out"%string) ->
  readlink w name = Some target ->
  no_NUL t = true ->
  List.length b = MAX_PATH_LENGTH (build w) ->
  nth_error b (List.length t) = Some z ->
  is_slash z = false ->
  has_slash t = true \/ z = NUL ->
  (if (List.length (directory_of t) + S (String.length IMAGE_FILE_NAME)
       <=? MAX_PATH_LENGTH (build w))%nat
   then
     exists b',
       getImageFilePath w b s = Done b' s /\
       c_string b'
       = Some (String.append (string_of_list_ascii (directory_of t))
                 IMAGE_FILE_NAME)
   else getImageFilePath w b s = Fault s).
Proof.
  intros t Hos Hlink Hnn Hb Hz Hns Hcase. subst t.
  change (S (String.length IMAGE_FILE_NAME)) with 10%nat.
  assert (Hnx : os (build w) <> GUESTVMXEN).
  { destruct Hos as [[Hos _]|[Hos _]]; rewrite Hos; discriminate. }
  destruct (read_link_directory w name b s target z Hlink Hb Hz Hns Hcase)
    as (rest & Hrun & Hlen & _).
  assert (E : getImageFilePath w b s
              = (len <- access (strlen (directory_of (list_ascii_of_string target)
                                          ++ NUL :: rest)) ;;
                 access (strcpy (directory_of (list_ascii_of_string target)
                                   ++ NUL :: rest) len IMAGE_FILE_NAME)) s).
  { rewrite (getImageFilePath_unfold w b s Hnx). unfold bind at 1.
    rewrite (getExecutablePath_read_link w name b s Hos), Hrun. reflexivity. }
  rewrite E. clear E.
  pose proof (no_NUL_directory _ Hnn) as Hd.
  destruct (Nat.leb_spec (List.length (directory_of (list_ascii_of_string target)) + 10)
              (MAX_PATH_LENGTH (build w))) as [Hroom|Hroom].
  - destruct (append_image_name _ rest s Hd ltac:(lia))
      as (rest' & Happ & Hstr).
    eexists. split; [exact Happ|exact Hstr].
  - apply append_image_name_overflow; [exact Hd|lia].
Qed.

Lemma realpath_directory w b s target :
  let t := list_ascii_of_string target in
  os (build w) = DARWIN ->
  realpath w (_executablePath s) = Some target ->
  no_NUL t = true ->
  (List.length t < List.length b)%nat ->
  exists rest,
    getExecutablePath w b s = Done (directory_of t ++ NUL :: rest) s /\
    List.length (directory_of t ++ NUL :: rest) = List.length b /\
    skipn (S (List.length t)) (directory_of t ++ NUL :: rest)
    = skipn (S (List.length t)) b.
Proof.
  intros t Hos Hreal Hnn Hlen.
  unfold getExecutablePath. rewrite Hos, Hreal. fold t.
  unfold bind, strcpy. fold t.
  rewrite store_chars_front by (rewrite length_app; simpl; lia).
  simpl access. unfold ret. rewrite <- app_assoc. simpl app.
  rewrite strlen_terminated by exact Hnn. simpl access. unfold ret.
  rewrite length_app. simpl List.length.
  replace (List.length t + 1)%nat with (S (List.length t)) by lia.
  destruct (chop_directory t NUL (skipn (S (List.length t)) b) eq_refl
              (or_intror eq_refl)) as (rest & Hchop & Hl & Htail).
  rewrite Hchop. simpl. exists rest. split; [reflexivity|]. split.
  - rewrite Hl, length_app. cbn [List.length]. rewrite length_skipn. lia.
  - specialize (Htail eq_refl).
    transitivity (skipn 1 (skipn (List.length t)
                             (directory_of t ++ NUL :: rest))).
    + symmetry. apply (skipn_skipn 1).
    + rewrite Htail. reflexivity.
Qed.

(** X3: on Darwin, for every path without NUL that [realpath] returns and
    that is shorter than the buffer, whatever the buffer held before,
    [getExecutablePath] leaves the path up to and including its last slash,
    and [getImageFilePath] leaves that directory followed by maxine.vm when
    it fits the buffer and writes past its end when it does not. *)
Theorem image_path_of_realpath w b s target :
  let t := list_ascii_of_string target in
  os (build w) = DARWIN ->
  realpath w (_executablePath s) = Some target ->
  no_NUL t = true ->
  List.length b = MAX_PATH_LENGTH (build w) ->
  (List.length t < MAX_PATH_LENGTH (build w))%nat ->
  (exists d,
     getExecutablePath w b s = Done d s /\
     c_string d = Some (string_of_list_ascii (directory_of t))) /\
  (if (List.length (directory_of t) + S (String.length IMAGE_FILE_NAME)
       <=? MAX_PATH_LENGTH (build w))%nat
   then
     exists b',
       getImageFilePath w b s = Done b' s /\
       c_string b'
       = Some (String.append (string_of_list_ascii (directory_of t))
                 IMAGE_FILE_NAME)
   else getImageFilePath w b s = Fault s).
Proof.
  intros t Hos Hreal Hnn Hb Hlen. subst t.
  change (S (String.length IMAGE_FILE_NAME)) with 10%nat.
  destruct (realpath_directory w b s target Hos Hreal Hnn ltac:(lia))
    as (rest & Hrun & Hl & _).
  pose proof (no_NUL_directory _ Hnn) as Hd.
  split.
  - eexists. split; [exact Hrun|]. apply c_string_terminated. exact Hd.
  - assert (E : getImageFilePath w b s
                = (len <- access (strlen (directory_of (list_ascii_of_string target)
                                            ++ NUL :: rest)) ;;
                   access (strcpy (directory_of (list_ascii_of_string target)
                                     ++ NUL :: rest) len IMAGE_FILE_NAME)) s).
    { rewrite getImageFilePath_unfold by (rewrite Hos; discriminate).
      unfold bind at 1. rewrite Hrun. reflexivity. }
    rewrite E. clear E.
    destruct (Nat.leb_spec (List.length (directory_of (list_ascii_of_string target)) + 10)
                (MAX_PATH_LENGTH (build w))) as [Hroom|Hroom].
    + destruct (append_image_name _ rest s Hd ltac:(lia))
        as (rest' & Happ & Hstr).
      eexists. split; [exact Happ|exact Hstr].
    + apply append_image_name_overflow; [exact Hd|lia].
Qed.

Lemma read_link_tail w name b b' s target :
  readlink w name = Some target ->
  (String.length target < MAX_PATH_LENGTH (build w))%nat ->
  List.length b = MAX_PATH_LENGTH (build w) ->
  List.length b' = MAX_PATH_LENGTH (build w) ->
  skipn (String.length target) b = skipn (String.length target) b' ->
  read_link w name b s = read_link w name b' s.
Proof.
  intros Hlink Hn Hb Hb' Htail. unfold read_link. rewrite Hlink.
  rewrite firstn_all2 by (rewrite length_list_ascii_of_string; lia).
  unfold bind.
  rewrite !store_chars_front by (rewrite length_list_ascii_of_string; lia).
  rewrite length_list_ascii_of_string, Htail. reflexivity.
Qed.

Lemma realpath_tail w b b' s target :
  os (build w) = DARWIN ->
  realpath w (_executablePath s) = Some target ->
  (String.length target < List.length b)%nat ->
  List.length b' = List.length b ->
  skipn (S (String.length target)) b = skipn (S (String.length target)) b' ->
  getExecutablePath w b s = getExecutablePath w b' s.
Proof.
  intros Hos Hreal Hn Hb' Htail. unfold getExecutablePath.
  rewrite Hos, Hreal. unfold bind, strcpy.
  rewrite !store_chars_front
    by (rewrite length_app, length_list_ascii_of_string; simpl; lia).
  rewrite length_app, length_list_ascii_of_string. simpl List.length.
  replace (String.length target + 1)%nat with (S (String.length target)) by lia.
  rewrite Htail. reflexivity.
Qed.

Lemma nth_error_repeat_NUL n i :
  (i < n)%nat -> nth_error (repeat NUL n) i = Some NUL.
Proof.
  revert i. induction n as [|n IH]; intros [|i] H; simpl; try lia;
    [reflexivity|apply IH; lia].
Qed.

(** X4: [native_executablePath], called twice in a row in a process whose
    executable path is shorter than the static array, leaves the same
    content in the array both times: the directory of the executable, on
    every platform (the empty string on GuestVM/Xen). *)
Theorem native_executablePath_idempotent w s target :
  let t := list_ascii_of_string target in
  resolves_to w s target ->
  (List.length t < MAX_PATH_LENGTH (build w))%nat ->
  exists b,
    native_executablePath_twice w s = Done (b, b) s /\
    List.length b = MAX_PATH_LENGTH (build w) /\
    (no_NUL t = true ->
     c_string b = Some (string_of_list_ascii (directory_of t))).
Proof.
  intros t Hres Hn. subst t.
  rewrite length_list_ascii_of_string in Hn.
  unfold native_executablePath_twice, native_executablePath, resolves_to in *.
  assert (Hb0 : List.length (static_result0 w) = MAX_PATH_LENGTH (build w)).
  { unfold static_result0. apply repeat_length. }
  destruct (os (build w)) eqn:Hos.
  - destruct Hres as [Hreal Hnn].
    destruct (realpath_directory w (static_result0 w) s target Hos Hreal Hnn)
      as (rest & Hrun & Hl & Htail).
    { rewrite length_list_ascii_of_string. lia. }
    rewrite length_list_ascii_of_string in Htail.
    exists (directory_of (list_ascii_of_string target) ++ NUL :: rest).
    split; [|split].
    + unfold bind. rewrite Hrun.
      rewrite (realpath_tail w _ (static_result0 w) s target Hos Hreal);
        [rewrite Hrun; reflexivity|lia|congruence|exact Htail].
    + congruence.
    + intros _. apply c_string_terminated. apply no_NUL_directory. exact Hnn.
  - subst target. unfold getExecutablePath. rewrite Hos.
    unfold static_result0.
    destruct (MAX_PATH_LENGTH (build w)) as [|n]; [simpl in Hn; lia|].
    exists (NUL :: repeat NUL n). split; [reflexivity|].
    split; [simpl; rewrite repeat_length; reflexivity|reflexivity].
  - assert (Hname : (os (build w) = LINUX /\ "/proc/self/exe"%string = "/proc/self/exe"%string) \/
                    (os (build w) = SOLARIS /\ "/proc/self/exe"%string = "/proc/self/path/a.out"%string))
      by (left; split; [exact Hos|reflexivity]).
    destruct (read_link_directory w "/proc/self/exe" (static_result0 w) s target NUL
                Hres Hb0) as (rest & Hrun & Hl & Htail).
    { rewrite length_list_ascii_of_string. unfold static_result0.
      apply nth_error_repeat_NUL. exact Hn. }
    { reflexivity. }
    { right. reflexivity. }
    specialize (Htail eq_refl). rewrite length_list_ascii_of_string in Htail.
    exists (directory_of (list_ascii_of_string target) ++ NUL :: rest).
    split; [|split].
    + unfold bind.
      rewrite (getExecutablePath_read_link w "/proc/self/exe" _ s Hname), Hrun.
      cbv beta iota.
      rewrite (getExecutablePath_read_link w "/proc/self/exe" _ s Hname).
      rewrite (read_link_tail w _ _ (static_result0 w) s target Hres Hn);
        [rewrite Hrun; reflexivity|congruence|exact Hb0|exact Htail].
    + congruence.
    + intros Hnn. apply c_string_terminated. apply no_NUL_directory. exact Hnn.
  - assert (Hname : (os (build w) = LINUX /\ "/proc/self/path/a.out"%string = "/proc/self/exe"%string) \/
                    (os (build w) = SOLARIS /\ "/proc/self/path/a.out"%string = "/proc/self/path/a.out"%string))
      by (right; split; [exact Hos|reflexivity]).
    destruct (read_link_directory w "/proc/self/path/a.out" (static_result0 w) s target NUL
                Hres Hb0) as (rest & Hrun & Hl & Htail).
    { rewrite length_list_ascii_of_string. unfold static_result0.
      apply nth_error_repeat_NUL. exact Hn. }
    { reflexivity. }
    { right. reflexivity. }
    specialize (Htail eq_refl). rewrite length_list_ascii_of_string in Htail.
    exists (directory_of (list_ascii_of_string target) ++ NUL :: rest).
    split; [|split].
    + unfold bind.
      rewrite (getExecutablePath_read_link w "/proc/self/path/a.out" _ s Hname), Hrun.
      cbv beta iota.
      rewrite (getExecutablePath_read_link w "/proc/self/path/a.out" _ s Hname).
      rewrite (read_link_tail w _ _ (static_result0 w) s target Hres Hn);
        [rewrite Hrun; reflexivity|congruence|exact Hb0|exact Htail].
    + congruence.
    + intros Hnn. apply c_string_terminated. apply no_NUL_directory. exact Hnn.
Qed.

Lemma log_arguments_trace n : forall i s,
  log_arguments n i s
  = Done tt {| mem := mem s; _executablePath := _executablePath s;
               trace := rev (map (fun k => Log (MsgArg (i + Z.of_nat k)))
                               (seq 0 n)) ++ trace s |}.
Proof.
  induction n as [|n IH]; intros i s.
  - destruct s. reflexivity.
  - cbn [log_arguments]. unfold bind, log_println, emit. rewrite IH.
    unfold push. cbn [mem _executablePath trace]. f_equal. f_equal.
    cbn [seq map rev]. rewrite <- seq_shift, map_map.
    rewrite <- app_assoc. cbn [app].
    replace (i + Z.of_nat 0) with i by lia. f_equal. f_equal.
    apply map_ext. intros k. f_equal. f_equal. lia.
Qed.

Lemma log_startup_trace w argc argv s :
  log_startup w argc argv s
  = Done tt {| mem := mem s; _executablePath := _executablePath s;
               trace := rev (map Log (startup_messages w argc argv)) ++ trace s |}.
Proof.
  unfold log_startup, startup_messages, is_GUESTVMXEN, when.
  destruct (log_LOADER (build w)); [|destruct s; reflexivity].
  unfold bind, log_println, emit.
  destruct (os (build w)); cbn [negb]; unfold ret; rewrite log_arguments_trace;
    unfold push; cbn [mem _executablePath trace app map rev]; f_equal; f_equal;
    rewrite map_map, <- !app_assoc; cbn [app]; reflexivity.
Qed.

Lemma check_environment_Done_state w exe s s' :
  check_environment w exe s = Done tt s' ->
  mem s' = mem s /\ trace s' = trace s.
Proof.
  unfold check_environment, when, bind, set_executablePath, log_exit, emit,
    exit, ret.
  destruct (is_DARWIN w).
  - destruct (getenv w "DYLD_FORCE_FLAT_NAMESPACE"); intros H; inversion H.
    split; reflexivity.
  - intros H. inversion H. split; reflexivity.
Qed.

Lemma startup_trace w argc argv exe s1 :
  (check_environment w exe ;;; log_startup w argc argv) (initial w) = Done tt s1 ->
  mem s1 = memory0 w /\
  trace s1 = rev (map Log (startup_messages w argc argv)).
Proof.
  unfold bind.
  destruct (check_environment w exe (initial w)) as [[] s0|c s0|s0] eqn:Hce;
    try discriminate.
  apply check_environment_Done_state in Hce. destruct Hce as [Hm Ht].
  rewrite log_startup_trace. intros H. inversion H. cbn [mem trace].
  rewrite Hm, Ht. cbn [initial mem trace]. rewrite app_nil_r. split; reflexivity.
Qed.

Lemma actions_of_log l : filter (fun e => negb (is_log e)) (rev (map Log l)) = [].
Proof.
  induction l as [|m l IH]; [reflexivity|].
  cbn [map rev]. rewrite filter_app, IH. reflexivity.
Qed.

Lemma messages_of_log l : messages_newest_first (rev (map Log l)) = rev l.
Proof.
  induction l as [|m l IH]; [reflexivity|].
  cbn [map rev].
  assert (E : forall a b, messages_newest_first (a ++ b)
                          = messages_newest_first a ++ messages_newest_first b).
  { intros a b. induction a as [|e a IHa]; [reflexivity|].
    destruct e; cbn [app messages_newest_first]; rewrite ?IHa; reflexivity. }
  rewrite E, IH. reflexivity.
Qed.

Lemma only_log_projections tr :
  forallb is_log tr = true -> calls tr = [] /\ image_loads tr = [].
Proof.
  induction tr as [|e tr IH]; [split; reflexivity|].
  cbn [forallb]. intros H. apply andb_prop in H. destruct H as [He Ht].
  destruct e; try discriminate He. exact (IH Ht).
Qed.

Lemma only_log_rev_map l : forallb is_log (rev (map Log l)) = true.
Proof.
  apply forallb_forall. intros e He. apply in_rev, in_map_iff in He.
  destruct He as (m & Hm & _). subst e. reflexivity.
Qed.

Lemma run_Done_trace w argc argv exe r sf :
  run w argc argv exe = Done r sf ->
  exists path fd,
    image_load w path = Loaded fd /\
    actions (trace sf)
    = [ImageLoad path fd; MessengerInitialize; ThreadsInitialize;
       Alloca (primordial_block_size w) (primordial_block w)]
      ++ (if auxiliary_size w =? 0 then []
          else [Malloc (auxiliary_size w) (auxiliary_address w)])
      ++ [Call (entry_method w) (entry_args w argc argv) (entry_memory w)]
      ++ (if fd >? 0 then [Close fd (close w fd)] else []) /\
    image_loads (trace sf) = [(path, fd)] /\
    calls (trace sf)
    = [(entry_method w, entry_args w argc argv, entry_memory w)] /\
    messages (trace sf)
    = if log_LOADER (build w) then
        startup_messages w argc argv
        ++ [MsgPrimordialAllocated (primordial_address w)]
        ++ (if auxiliary_size w =? 0 then []
            else [MsgAuxAllocated
                    (to_Address (build w) (auxiliarySpaceSize (image_header w)))
                    (auxiliary_address w)])
        ++ [MsgEntering (entry_args w argc argv); MsgStartExited r]
        ++ close_warning w fd
        ++ [MsgExitCode r]
      else close_warning w fd.
Proof.
  unfold run. rewrite maxine_unfold. intros H.
  apply bind_Done in H. destruct H as ([] & s1 & Hs1 & H).
  apply startup_trace in Hs1. destruct Hs1 as [Hm Ht].
  destruct (only_log_projections _
              (only_log_rev_map (startup_messages w argc argv))) as [Hc Hi].
  apply bind_Done in H. destruct H as (fd & s2 & Hload & H).
  pose proof (loadImage_outcome w s1) as Q2. rewrite Hload in Q2.
  destruct Q2 as (path & Himg & Hs2). subst s2.
  exists path, fd. split; [exact Himg|].
  assert (Hst : log_LOADER (build w) = false -> startup_messages w argc argv = []).
  { intros Hl. unfold startup_messages. rewrite Hl. reflexivity. }
  unfold actions, messages, close_warning, entry_memory, entry_args,
    entry_method, auxiliary_address, primordial_address, primordial_block,
    primordial_block_size.
  unfold allocate_primordial, allocate_auxiliary, close_image, call_method,
    call_alloca, call_malloc, call_close, messenger_initialize,
    threads_initialize, log_println, log_exit, memset, when, emit, exit, ret,
    bind in H.
  rewrite <- Hm.
  destruct (auxiliary_size w =? 0) eqn:Hsz;
    [|destruct (malloc w (auxiliary_size w) =? 0) eqn:Hnull;
      [destruct (log_LOADER (build w)); discriminate H|]];
    destruct (log_LOADER (build w)) eqn:Hlog, (fd >? 0) eqn:Hfd;
    try destruct (close w fd =? 0) eqn:Hclose;
    cbn [negb andb push mem trace _executablePath] in H; inversion H; subst r sf;
    cbn [push mem trace filter is_log negb messages_newest_first andb
         image_loads calls];
    rewrite Ht, actions_of_log, messages_of_log, Hc, Hi, ?(Hst eq_refl);
    cbn [rev app]; rewrite ?rev_involutive, <- ?app_assoc;
    repeat split; reflexivity.
Qed.

(** X6: the entry point is called with the heap base of the image, the
    two bridge functions in the order [openDynamicLibrary], [loadSymbol],
    and [argc] and [argv] as [maxine] received them; the thread locals are
    the aligned result of [alloca]. *)
Theorem entry_call_arguments w argc argv exe r sf :
  run w argc argv exe = Done r sf ->
  exists method args m,
    calls (trace sf) = [(method, args, m)] /\
    arg_bootHeapRegionStart args = image_heap w /\
    arg_openDynamicLibrary args = openDynamicLibrary /\
    arg_dlsym args = loadSymbol /\
    arg_argc args = argc /\
    arg_argv args = argv /\
    arg_primordialVmThreadLocals args
    = wordAlign (build w) (alloca w (primordial_block_size w)).
Proof.
  intros H. apply run_Done_shape in H. inversion H; subst; clear H.
  exists (entry_method w), (entry_args w argc argv), (entry_memory w).
  split; [assumption|]. repeat split.
Qed.

(** X7: what a returning run does, in this order: it loads the image,
    initialises the messenger, then the threads, takes the stack block,
    allocates the auxiliary space if its size is not zero, calls the entry
    point, and closes the descriptor if it is greater than zero. *)
Theorem order_of_operations w argc argv exe r sf :
  run w argc argv exe = Done r sf ->
  exists path fd method args m,
    image_load w path = Loaded fd /\
    actions (trace sf)
    = [ImageLoad path fd; MessengerInitialize; ThreadsInitialize;
       Alloca (primordial_block_size w) (primordial_block w)]
      ++ (if auxiliary_size w =? 0 then []
          else [Malloc (auxiliary_size w) (arg_auxiliarySpace args)])
      ++ [Call method args m]
      ++ (if fd >? 0 then [Close fd (close w fd)] else []).
Proof.
  intros H.
  destruct (run_Done_trace _ _ _ _ _ _ H) as (path & fd & Hi & Ha & _).
  exists path, fd, (entry_method w), (entry_args w argc argv), (entry_memory w).
  split; [exact Hi|exact Ha].
Qed.

(** X8: what a returning run writes: without [log_LOADER] nothing but the
    warning of a failed [close]; with it the start-up lines, the address of
    the thread locals, the auxiliary space if there is one, the entry and
    the exit of the VM, the warning if [close] failed, and the exit code,
    in this order. *)
Theorem log_of_returning_run w argc argv exe r sf :
  run w argc argv exe = Done r sf ->
  exists path fd method args m,
    image_loads (trace sf) = [(path, fd)] /\
    calls (trace sf) = [(method, args, m)] /\
    messages (trace sf)
    = if log_LOADER (build w) then
        startup_messages w argc argv
        ++ [MsgPrimordialAllocated (arg_primordialVmThreadLocals args)]
        ++ (if auxiliary_size w =? 0 then []
            else [MsgAuxAllocated
                    (to_Address (build w) (auxiliarySpaceSize (image_header w)))
                    (arg_auxiliarySpace args)])
        ++ [MsgEntering args; MsgStartExited r]
        ++ close_warning w fd
        ++ [MsgExitCode r]
      else close_warning w fd.
Proof.
  intros H.
  destruct (run_Done_trace _ _ _ _ _ _ H)
    as (path & fd & _ & _ & Hl & Hc & Hm).
  exists path, fd, (entry_method w), (entry_args w argc argv), (entry_memory w).
  split; [exact Hl|]. split; [exact Hc|exact Hm].
Qed.

(** X9: on Darwin without DYLD_FORCE_FLAT_NAMESPACE [maxine] ends the
    process with 11 before anything else happens: the one line about the
    variable is written, the memory is untouched, no image is loaded. *)
Theorem missing_variable_stops_first w argc argv exe :
  os (build w) = DARWIN ->
  getenv w "DYLD_FORCE_FLAT_NAMESPACE" = None ->
  run w argc argv exe
  = Exited 11 {| mem := memory0 w; _executablePath := exe;
                 trace := [Log MsgFlatNamespace] |}.
Proof.
  intros Hos Henv.
  unfold run, maxine, check_environment, is_DARWIN. rewrite Hos.
  unfold when, bind, set_executablePath, log_exit, bind, emit. rewrite Henv.
  reflexivity.
Qed.

Lemma to_jint_to_Address c x k :
  4 <= sizeof_Address c ->
  to_jint (to_Address c (x + 2 ^ 32 * k)) = to_jint x.
Proof.
  intros Hsz. unfold to_jint, to_Address, address_bits.
  assert (Hdiv : (2 ^ 32 | 2 ^ (8 * sizeof_Address c))).
  { exists (2 ^ (8 * sizeof_Address c - 32)).
    rewrite <- Z.pow_add_r by lia. f_equal. lia. }
  f_equal.
  rewrite Zplus_mod.
  rewrite Z.mod_mod_divide by exact Hdiv.
  rewrite <- Zplus_mod.
  replace (x + 2 ^ 32 * k + 2 ^ 31) with (x + 2 ^ 31 + k * 2 ^ 32) by lia.
  apply Z_mod_plus_full.
Qed.

(** X12: with words of 4 bytes or more, the offset that
    [native_trap_exit] writes behind the symbol is the difference between
    the address and the symbol reduced to a signed 32-bit integer: the
    difference itself when it fits, 0 at the start of the symbol. *)
Theorem trap_offset_is_signed_int w code address s info sname :
  dladdr w address = Some info ->
  dli_sname info = Some sname ->
  4 <= sizeof_Address (build w) ->
  exists offset,
    native_trap_exit w code address s
    = Exited code
        (push (Log (MsgTrap address))
           (push (Log (MsgInSymbol (dli_fname info) (dli_fbase info) sname
                         (dli_saddr info) offset)) s)) /\
    - 2 ^ 31 <= offset < 2 ^ 31 /\
    (exists k, offset = address - dli_saddr info + 2 ^ 32 * k) /\
    (- 2 ^ 31 <= address - dli_saddr info < 2 ^ 31 ->
     offset = address - dli_saddr info) /\
    (address = dli_saddr info -> offset = 0).
Proof.
  intros Hdl Hs Hsz.
  exists (to_jint (to_Address (build w) (address - dli_saddr info))).
  pose proof (to_jint_to_Address (build w) (address - dli_saddr info) 0 Hsz) as E.
  rewrite Z.mul_0_r, Z.add_0_r in E. rewrite E.
  split; [|split; [|split; [|split]]].
  - unfold native_trap_exit, log_println, log_exit, bind, emit, exit.
    rewrite Hdl, Hs, E. reflexivity.
  - unfold to_jint.
    pose proof (Z.mod_pos_bound (address - dli_saddr info + 2 ^ 31) (2 ^ 32)
                  ltac:(lia)). lia.
  - unfold to_jint.
    exists (- ((address - dli_saddr info + 2 ^ 31) / 2 ^ 32)).
    pose proof (Z.div_mod (address - dli_saddr info + 2 ^ 31) (2 ^ 32)
                  ltac:(lia)). lia.
  - intros Hr. apply to_jint_small. exact Hr.
  - intros Ha. subst address. rewrite Z.sub_diag. reflexivity.
Qed.




(** ** Instances *)

Lemma directory_of_link_witness :
  exists d,
    getExecutablePath (linux_world 16 4 false)
      (imageFilePath0 (linux_world 16 4 false)) (initial (linux_world 16 4 false))
    = Done d (initial (linux_world 16 4 false)) /\
    List.length d = List.length (imageFilePath0 (linux_world 16 4 false)) /\
    c_string d = Some "/opt/app/bin/"%string.
Proof.
  apply (directory_of_link (linux_world 16 4 false) "/proc/self/exe"
           (imageFilePath0 (linux_world 16 4 false))
           (initial (linux_world 16 4 false)) "/opt/app/bin/x" "x"%char).
  - left. split; reflexivity.
  - reflexivity.
  - reflexivity.
  - reflexivity.
  - reflexivity.
  - reflexivity.
  - left. reflexivity.
Defined.

Lemma image_path_of_link_witness :
  (exists b',
     getImageFilePath (linux_world 16 4 false)
       (imageFilePath0 (linux_world 16 4 false)) (initial (linux_world 16 4 false))
     = Done b' (initial (linux_world 16 4 false)) /\
     c_string b' = Some "/opt/app/bin/maxine.vm"%string) /\
  getImageFilePath deep_path_world (imageFilePath0 deep_path_world)
    (initial deep_path_world)
  = Fault (initial deep_path_world).
Proof.
  split.
  - apply (image_path_of_link (linux_world 16 4 false) "/proc/self/exe"
             (imageFilePath0 (linux_world 16 4 false))
             (initial (linux_world 16 4 false)) "/opt/app/bin/x" "x"%char).
    + left. split; reflexivity.
    + reflexivity.
    + reflexivity.
    + reflexivity.
    + reflexivity.
    + reflexivity.
    + left. reflexivity.
  - apply (image_path_of_link deep_path_world "/proc/self/exe"
             (imageFilePath0 deep_path_world) (initial deep_path_world)
             "/opt/app/bin/a_very_long_dir/x" "x"%char).
    + left. split; reflexivity.
    + reflexivity.
    + reflexivity.
    + reflexivity.
    + reflexivity.
    + reflexivity.
    + left. reflexivity.
Defined.

Lemma image_path_of_realpath_witness :
  (exists d,
     getExecutablePath darwin_world (imageFilePath0 darwin_world)
       (initial darwin_world)
     = Done d (initial darwin_world) /\
     c_string d = Some "/opt/app/bin/"%string) /\
  (exists b',
     getImageFilePath darwin_world (imageFilePath0 darwin_world)
       (initial darwin_world)
     = Done b' (initial darwin_world) /\
     c_string b' = Some "/opt/app/bin/maxine.vm"%string).
Proof.
  apply (image_path_of_realpath darwin_world (imageFilePath0 darwin_world)
           (initial darwin_world) "/opt/app/bin/x").
  - reflexivity.
  - reflexivity.
  - reflexivity.
  - reflexivity.
  - vm_compute. lia.
Defined.

Lemma native_executablePath_idempotent_witness :
  exists b,
    native_executablePath_twice (linux_world 16 4 false)
      (initial (linux_world 16 4 false))
    = Done (b, b) (initial (linux_world 16 4 false)) /\
    List.length b = 32%nat /\
    (no_NUL (list_ascii_of_string "/opt/app/bin/x") = true ->
     c_string b = Some "/opt/app/bin/"%string).
Proof.
  apply (native_executablePath_idempotent (linux_world 16 4 false)
           (initial (linux_world 16 4 false)) "/opt/app/bin/x").
  - reflexivity.
  - vm_compute. lia.
Defined.


Lemma entry_call_arguments_witness :
  exists method args m,
    calls (trace (final_state (run (linux_world 16 4 false) 2 7000 EmptyString)))
    = [(method, args, m)] /\
    arg_bootHeapRegionStart args = 4096 /\
    arg_openDynamicLibrary args = openDynamicLibrary /\
    arg_dlsym args = loadSymbol /\
    arg_argc args = 2 /\
    arg_argv args = 7000 /\
    arg_primordialVmThreadLocals args = 1008.
Proof.
  apply (entry_call_arguments (linux_world 16 4 false) 2 7000 EmptyString (-7)
           (final_state (run (linux_world 16 4 false) 2 7000 EmptyString))).
  reflexivity.
Defined.

Lemma order_of_operations_witness :
  exists path fd method args m,
    image_load (linux_world 16 4 true) path = Loaded fd /\
    actions (trace (final_state (run (linux_world 16 4 false) 2 7000 EmptyString)))
    = [ImageLoad path fd; MessengerInitialize; ThreadsInitialize;
       Alloca 24 1001; Malloc 4 (arg_auxiliarySpace args);
       Call method args m]
      ++ (if fd >? 0 then [Close fd 0] else []).
Proof.
  apply (order_of_operations (linux_world 16 4 false) 2 7000 EmptyString (-7)
           (final_state (run (linux_world 16 4 false) 2 7000 EmptyString))).
  reflexivity.
Defined.

Lemma log_of_returning_run_witness :
  exists path fd method args m,
    image_loads (trace (final_state (run (closing_world 3 (-1)) 2 7000 EmptyString)))
    = [(path, fd)] /\
    calls (trace (final_state (run (closing_world 3 (-1)) 2 7000 EmptyString)))
    = [(method, args, m)] /\
    messages (trace (final_state (run (closing_world 3 (-1)) 2 7000 EmptyString)))
    = close_warning (closing_world 3 (-1)) fd.
Proof.
  apply (log_of_returning_run (closing_world 3 (-1)) 2 7000 EmptyString (-7)
           (final_state (run (closing_world 3 (-1)) 2 7000 EmptyString))).
  reflexivity.
Defined.

Lemma missing_variable_stops_first_witness :
  run no_flat_namespace_world 1 0 "/opt/app/bin/x"
  = Exited 11 {| mem := memory0 no_flat_namespace_world;
                 _executablePath := "/opt/app/bin/x";
                 trace := [Log MsgFlatNamespace] |}.
Proof.
  apply (missing_variable_stops_first no_flat_namespace_world 1 0
           "/opt/app/bin/x"); reflexivity.
Defined.

Lemma trap_offset_is_signed_int_witness :
  exists offset,
    native_trap_exit trap_world 2 5010 (initial trap_world)
    = Exited 2
        (push (Log (MsgTrap 5010))
           (push (Log (MsgInSymbol "libjvm.so" 5000 "run" 5008 offset))
              (initial trap_world))) /\
    offset = 2.
Proof.
  destruct (trap_offset_is_signed_int trap_world 2 5010 (initial trap_world)
              {| dli_fname := "libjvm.so"; dli_fbase := 5000;
                 dli_sname := Some "run"%string; dli_saddr := 5008 |}
              "run" eq_refl eq_refl ltac:(vm_compute; discriminate))
    as (offset & Hrun & _ & _ & Hfit & _).
  exists offset. split; [exact Hrun|].
  apply Hfit. vm_compute. split; [discriminate|reflexivity].
Defined.


Lemma read_link_in_bounds_witness :
  exists b',
    read_link stale_slash_world "/proc/self/exe"
      (imageFilePath0 stale_slash_world) (initial stale_slash_world)
    = Done b' (initial stale_slash_world) /\
    List.length b' = List.length (imageFilePath0 stale_slash_world).
Proof.
  apply (read_link_in_bounds stale_slash_world "/proc/self/exe"
           (imageFilePath0 stale_slash_world) (initial stale_slash_world)
           "/opt/app/bin/x").
  - reflexivity.
  - reflexivity.
  - vm_compute. lia.
Defined.

(** ** More of the path and of the auxiliary space *)

Lemma imageFilePath0_nth w n :
  (n < MAX_PATH_LENGTH (build w))%nat ->
  nth_error (imageFilePath0 w) n = Some (uninitialized w n).
Proof.
  intros Hn. unfold imageFilePath0.
  rewrite nth_error_map, nth_error_seq.
  replace (n <? MAX_PATH_LENGTH (build w))%nat with true
    by (symmetry; apply Nat.ltb_lt; exact Hn).
  reflexivity.
Qed.

(** X16: on Linux and Solaris [loadImage] hands to [image_load] the
    directory of the executable followed by maxine.vm, for every link
    target with a slash and without NUL, as long as the byte that the
    uninitialised array holds behind the link is not a slash and the path
    of the image fits the array; it returns the descriptor that
    [image_load] returns, or ends the process with the code of
    [image_load]. *)
Theorem image_loaded_from_directory w name s target :
  let t := list_ascii_of_string target in
  (os (build w) = LINUX /\ name = "/proc/self/exe"%string) \/
  (os (build w) = SOLARIS /\ name = "/proc/self/path/a.out"%string) ->
  readlink w name = Some target ->
  no_NUL t = true ->
  has_slash t = true ->
  (List.length t < MAX_PATH_LENGTH (build w))%nat ->
  is_slash (uninitialized w (List.length t)) = false ->
  (List.length (directory_of t) + S (String.length IMAGE_FILE_NAME)
   <= MAX_PATH_LENGTH (build w))%nat ->
  exists path,
    c_string path
    = Some (String.append (string_of_list_ascii (directory_of t))
              IMAGE_FILE_NAME) /\
    (forall fd, image_load w path = Loaded fd ->
                loadImage w s = Done fd (push (ImageLoad path fd) s)) /\
    (forall code, image_load w path = LoadExit code ->
                  loadImage w s = Exited code s).
Proof.
  intros t Hos Hlink Hnn Hsl Hn Hz Hroom. subst t.
  change (S (String.length IMAGE_FILE_NAME)) with 10%nat in Hroom.
  assert (Hnx : os (build w) <> GUESTVMXEN).
  { destruct Hos as [[Hos _]|[Hos _]]; rewrite Hos; discriminate. }
  destruct (read_link_directory w name (imageFilePath0 w) s target _ Hlink
              (imageFilePath0_length w) (imageFilePath0_nth w _ Hn) Hz
              (or_introl Hsl)) as (rest & Hrun & Hlen & _).
  pose proof (no_NUL_directory _ Hnn) as Hd.
  destruct (append_image_name _ rest s Hd
              ltac:(rewrite Hlen, imageFilePath0_length; lia))
    as (rest' & Happ & Hstr).
  eexists. split; [exact Hstr|].
  assert (Hpath : getImageFilePath w (imageFilePath0 w) s
                  = Done (directory_of (list_ascii_of_string target)
                          ++ list_ascii_of_string IMAGE_FILE_NAME
                          ++ NUL :: rest') s).
  { rewrite (getImageFilePath_unfold w _ s Hnx). unfold bind at 1.
    rewrite (getExecutablePath_read_link w name _ s Hos), Hrun.
    exact Happ. }
  split.
  - intros fd Himg. unfold loadImage, bind. rewrite Hpath.
    unfold call_image_load. rewrite Himg. reflexivity.
  - intros code Himg. unfold loadImage, bind. rewrite Hpath.
    unfold call_image_load. rewrite Himg. reflexivity.
Qed.

Lemma image_loaded_from_directory_witness :
  exists path,
    c_string path = Some "/opt/app/bin/maxine.vm"%string /\
    (forall fd, image_load (linux_world 16 4 false) path = Loaded fd ->
                loadImage (linux_world 16 4 false) (initial (linux_world 16 4 false))
                = Done fd (push (ImageLoad path fd)
                             (initial (linux_world 16 4 false)))) /\
    (forall code, image_load (linux_world 16 4 false) path = LoadExit code ->
                  loadImage (linux_world 16 4 false)
                    (initial (linux_world 16 4 false))
                  = Exited code (initial (linux_world 16 4 false))).
Proof.
  apply (image_loaded_from_directory (linux_world 16 4 false) "/proc/self/exe"
           (initial (linux_world 16 4 false)) "/opt/app/bin/x").
  - left. split; reflexivity.
  - reflexivity.
  - reflexivity.
  - reflexivity.
  - vm_compute. lia.
  - reflexivity.
  - vm_compute. lia.
Defined.

(** X17: when the link is one character shorter than the buffer and the
    last byte of the buffer, which [readlink] did not write, holds a slash,
    the loop stores its NUL one byte past the end of the buffer. *)
Theorem stale_slash_in_last_byte w name b s target :
  readlink w name = Some target ->
  List.length b = MAX_PATH_LENGTH (build w) ->
  S (String.length target) = MAX_PATH_LENGTH (build w) ->
  nth_error b (String.length target) = Some "/"%char ->
  read_link w name b s = Fault s /\
  exists b',
    store_chars b 0 (list_ascii_of_string target) = Some b' /\
    buf_get b' (String.length target) = Some "/"%char /\
    buf_set b' (S (String.length target)) NUL = None.
Proof.
  intros Hlink Hb Hn Hz.
  pose proof (length_list_ascii_of_string target) as Hl.
  assert (Hstore : store_chars b 0 (list_ascii_of_string target)
                   = Some (list_ascii_of_string target
                           ++ "/"%char :: skipn (S (String.length target)) b)).
  { rewrite store_chars_front by lia. rewrite Hl.
    rewrite (skipn_cons_nth _ _ _ Hz). reflexivity. }
  assert (Hget : buf_get (list_ascii_of_string target
                          ++ "/"%char :: skipn (S (String.length target)) b)
                   (String.length target) = Some "/"%char).
  { unfold buf_get. rewrite <- Hl at 2. apply nth_error_middle. }
  assert (Hset : buf_set (list_ascii_of_string target
                          ++ "/"%char :: skipn (S (String.length target)) b)
                   (S (String.length target)) NUL = None).
  { apply buf_set_past_end. rewrite length_app. cbn [List.length].
    rewrite length_skipn. lia. }
  split.
  - unfold read_link. rewrite Hlink. rewrite firstn_all2 by lia.
    assert (Hchop : chop (list_ascii_of_string target
                          ++ "/"%char :: skipn (S (String.length target)) b)
                      (String.length target) = None).
    { rewrite chop_eq, Hget. exact Hset. }
    unfold bind. rewrite Hstore. cbn [access]. unfold ret.
    rewrite Hl, Hchop. reflexivity.
  - eexists. split; [exact Hstore|]. split; [exact Hget|exact Hset].
Qed.

Lemma stale_slash_in_last_byte_witness :
  read_link tight_buffer_world "/proc/self/exe"
    (imageFilePath0 tight_buffer_world) (initial tight_buffer_world)
  = Fault (initial tight_buffer_world) /\
  exists b',
    store_chars (imageFilePath0 tight_buffer_world) 0
      (list_ascii_of_string "/opt/app/bin/x") = Some b' /\
    buf_get b' 14 = Some "/"%char /\
    buf_set b' 15 NUL = None.
Proof.
  apply (stale_slash_in_last_byte tight_buffer_world "/proc/self/exe"
           (imageFilePath0 tight_buffer_world) (initial tight_buffer_world)
           "/opt/app/bin/x"); reflexivity.
Defined.

(** X18: in a build with the card table verification a header that asks
    for no auxiliary space still gets one: a returning run has allocated
    the reference buffer of 1024*1024*1024 bytes alone, filled it with the
    poison value and passed it to the entry point. *)
Theorem reference_buffer_alone w argc argv exe r sf :
  ENABLE_CARD_TABLE_VERIFICATION (build w) = true ->
  auxiliarySpaceSize (image_header w) = 0 ->
  4 <= sizeof_Address (build w) ->
  run w argc argv exe = Done r sf ->
  exists method args m,
    calls (trace sf) = [(method, args, m)] /\
    mallocs (trace sf) = [(1024 * 1024 * 1024, arg_auxiliarySpace args)] /\
    arg_auxiliarySpace args <> 0 /\
    (forall i, 0 <= i < 1024 * 1024 * 1024 -> m (arg_auxiliarySpace args + i) = 1).
Proof.
  intros Hon Hz Hsz H.
  assert (Hsize : auxiliary_size w = 1024 * 1024 * 1024).
  { unfold auxiliary_size, REFERENCE_BUFFER_SIZE. rewrite Hon, Hz.
    apply to_Address_small. unfold address_bits. split; [lia|].
    apply Z.lt_le_trans with (2 ^ 32); [reflexivity|].
    apply Z.pow_le_mono_r; lia. }
  apply run_Done_shape in H. inversion H; subst; clear H.
  exists (entry_method w), (entry_args w argc argv), (entry_memory w).
  split; [assumption|].
  assert (Hne : (auxiliary_size w =? 0) = false)
    by (rewrite Hsize; reflexivity).
  cbn [arg_auxiliarySpace entry_args].
  match goal with Hm : mallocs (trace _) = _ |- _ => rewrite Hm end.
  unfold entry_memory, auxiliary_address. rewrite Hne, Hsize.
  split; [reflexivity|]. split.
  - match goal with Hn : _ <> 0 -> _ |- _ => rewrite <- Hsize; apply Hn end.
    rewrite Hsize. discriminate.
  - intros i Hi. apply memset_mem_inside. lia.
Qed.

Lemma reference_buffer_alone_witness :
  exists method args m,
    calls (trace (final_state (run card_table_world 1 0 EmptyString)))
    = [(method, args, m)] /\
    mallocs (trace (final_state (run card_table_world 1 0 EmptyString)))
    = [(1024 * 1024 * 1024, arg_auxiliarySpace args)] /\
    arg_auxiliarySpace args <> 0 /\
    (forall i, 0 <= i < 1024 * 1024 * 1024 -> m (arg_auxiliarySpace args + i) = 1).
Proof.
  apply (reference_buffer_alone card_table_world 1 0 EmptyString 0
           (final_state (run card_table_world 1 0 EmptyString))).
  - reflexivity.
  - reflexivity.
  - vm_compute. discriminate.
  - reflexivity.
Defined.
